(** * RecursiveChunker: a shallow embedding of
      src/chonkie/chunkers/recursive_chunker.py

    Python values are modelled as follows.
    - [str] is [string]; [len] is [String.length]; characters are [ascii].
    - [int] is [Z].  A token count is an [int] or the float [inf] that the
      estimator returns, so counts live in [num]: Python's numeric tower
      restricted to the integers and the three float specials that
      arithmetic on [inf] and integers can produce.
    - A computation that can raise, or whose loop may not finish, returns an
      [outcome]. *)

From Stdlib Require Import ZArith List String Ascii Bool Lia.
Import ListNotations.

Local Open Scope Z_scope.

(** ** Outcomes *)

Inductive exn : Type := ValueError | TypeError | IndexError.

Inductive outcome (A : Type) : Type :=
| Ret (a : A)
| Raise (e : exn)
| Loops
| TooDeep.

Arguments Ret {A} a.
Arguments Raise {A} e.
Arguments Loops {A}.
Arguments TooDeep {A}.

Definition bind {A B : Type} (c : outcome A) (k : A -> outcome B) : outcome B :=
  match c with
  | Ret a => k a
  | Raise e => Raise e
  | Loops => Loops
  | TooDeep => TooDeep
  end.

Notation "x <- c ;; k" := (bind c (fun x => k))
  (at level 61, c at next level, right associativity).

(** ** Python numbers: [int], and the floats [inf], [-inf], [nan] *)

Module Num.

Inductive num : Type := Int (z : Z) | PInf | NInf | NaN.

Definition add (x y : num) : num :=
  match x, y with
  | Int a, Int b => Int (a + b)
  | NaN, _ | _, NaN => NaN
  | PInf, NInf | NInf, PInf => NaN
  | PInf, _ | _, PInf => PInf
  | NInf, _ | _, NInf => NInf
  end.

Definition neg (x : num) : num :=
  match x with
  | Int a => Int (- a)
  | PInf => NInf
  | NInf => PInf
  | NaN => NaN
  end.

Definition sub (x y : num) : num := add x (neg y).

(** [x < y]; every comparison with [nan] is false. *)
Definition ltb (x y : num) : bool :=
  match x, y with
  | Int a, Int b => a <? b
  | NaN, _ | _, NaN => false
  | _, NInf => false
  | PInf, _ => false
  | NInf, _ => true
  | Int _, PInf => true
  end.

Definition gtb (x y : num) : bool := ltb y x.

(** [x <= y] *)
Definition leb (x y : num) : bool :=
  match x, y with
  | Int a, Int b => a <=? b
  | NaN, _ | _, NaN => false
  | NInf, _ => true
  | _, PInf => true
  | _, _ => false
  end.

(** The values a token counter or the estimator hands out: an integer or
    [inf]. *)
Definition is_count (x : num) : Prop :=
  match x with Int _ | PInf => True | _ => False end.

Definition is_int (x : num) : Prop :=
  match x with Int _ => True | _ => False end.

(** A count that is not negative. *)
Definition is_nonneg (x : num) : Prop :=
  match x with Int z => 0 <= z | PInf => True | _ => False end.

(** [sum(l)] *)
Definition sum (l : list num) : num := fold_right add (Int 0) l.

End Num.

Import Num.

(** ** Python lists *)

Definition len {A : Type} (l : list A) : Z := Z.of_nat (List.length l).

(** [l[i]], a negative [i] counting from the end. *)
Definition getitem {A : Type} (l : list A) (i : Z) : outcome A :=
  let j := if i <? 0 then i + len l else i in
  if (0 <=? j) && (j <? len l) then
    match nth_error l (Z.to_nat j) with
    | Some x => Ret x
    | None => Raise IndexError
    end
  else Raise IndexError.

(** Where a slice bound lands: negative bounds count from the end, and the
    result is clipped to [0 .. len l]. *)
Definition clip {A : Type} (l : list A) (i : Z) : nat :=
  Z.to_nat (Z.min (len l) (Z.max 0 (if i <? 0 then i + len l else i))).

(** [l[a:b]] *)
Definition slice {A : Type} (l : list A) (a b : Z) : list A :=
  firstn (clip l b - clip l a) (skipn (clip l a) l).

(** [itertools.accumulate(l, f)] *)
Fixpoint accumulate_from {A : Type} (f : A -> A -> A) (acc : A) (l : list A)
  : list A :=
  acc :: match l with
         | [] => []
         | y :: l' => accumulate_from f (f acc y) l'
         end.

Definition accumulate {A : Type} (f : A -> A -> A) (l : list A) : list A :=
  match l with
  | [] => []
  | x :: l' => accumulate_from f x l'
  end.

(** [bisect.bisect_left(a, x, lo)], as in the standard library:
<<
    if lo < 0: raise ValueError
    hi = len(a)
    while lo < hi:
        mid = (lo + hi) // 2
        if a[mid] < x: lo = mid + 1
        else: hi = mid
    return lo
>>
    The interval shrinks at every turn, so [hi - lo] turns are enough. *)
Fixpoint bisect_loop (turns : nat) (a : list num) (x : num) (lo hi : Z) : Z :=
  match turns with
  | O => lo
  | S turns' =>
      if lo <? hi then
        let mid := (lo + hi) / 2 in
        if Num.ltb (nth (Z.to_nat mid) a NaN) x
        then bisect_loop turns' a x (mid + 1) hi
        else bisect_loop turns' a x lo mid
      else lo
  end.

Definition bisect_left (a : list num) (x : num) (lo : Z) : outcome Z :=
  if lo <? 0 then Raise ValueError
  else Ret (bisect_loop (Z.to_nat (len a - lo)) a x lo (len a)).

(** ** Python strings *)

Module Str.

Definition strlen (s : string) : Z := Z.of_nat (String.length s).

Definition nonempty (s : string) : bool :=
  match s with EmptyString => false | String _ _ => true end.

(** [s[n:]] and [s[:n]] for [n >= 0] *)
Fixpoint drop (n : nat) (s : string) : string :=
  match n, s with
  | S n', String _ s' => drop n' s'
  | _, _ => s
  end.

Fixpoint take (n : nat) (s : string) : string :=
  match n, s with
  | S n', String c s' => String c (take n' s')
  | _, _ => EmptyString
  end.

(** [s[a:b]] for [a, b >= 0] *)
Definition slice (s : string) (a b : nat) : string := take (b - a) (drop a s).

(** [s.index(sub)]: the first position where [sub] starts, or [ValueError]. *)
Fixpoint index (sub s : string) : outcome nat :=
  if String.prefix sub s then Ret O
  else match s with
       | EmptyString => Raise ValueError
       | String _ s' => i <- index sub s' ;; Ret (S i)
       end.

(** [s.replace(old, new)] for a non-empty [old]: occurrences are taken left to
    right and do not overlap; [skip] counts the characters of the occurrence
    being replaced that are still to be passed over. *)
Fixpoint replace_scan (old new : string) (skip : nat) (s : string) : string :=
  match s with
  | EmptyString => EmptyString
  | String c s' =>
      match skip with
      | S k => replace_scan old new k s'
      | O =>
          if String.prefix old s
          then (new ++ replace_scan old new (String.length old - 1) s')%string
          else String c (replace_scan old new 0 s')
      end
  end.

(** With an empty [old], [new] goes before every character and at the end. *)
Fixpoint replace_empty (new : string) (s : string) : string :=
  match s with
  | EmptyString => new
  | String c s' => (new ++ String c (replace_empty new s'))%string
  end.

Definition replace (s old new : string) : string :=
  match old with
  | EmptyString => replace_empty new s
  | String _ _ => replace_scan old new 0 s
  end.

(** [s.split(sep)]; an empty separator is a [ValueError]. *)
Fixpoint split_scan (sep : string) (skip : nat) (piece : string) (s : string)
  : list string :=
  match s with
  | EmptyString => [piece]
  | String c s' =>
      match skip with
      | S k => split_scan sep k piece s'
      | O =>
          if String.prefix sep s
          then piece :: split_scan sep (String.length sep - 1) EmptyString s'
          else split_scan sep 0 (piece ++ String c EmptyString)%string s'
      end
  end.

Definition split (s sep : string) : outcome (list string) :=
  match sep with
  | EmptyString => Raise ValueError
  | String _ _ => Ret (split_scan sep 0 EmptyString s)
  end.

(** [sep.join(l)] *)
Definition join (sep : string) (l : list string) : string := String.concat sep l.

End Str.

(** ** The merger, [_merge_splits] *)

Section Merger.

Variable chunk_size : Z.

Record merge_state : Type := MergeState {
  current_index : Z;
  merged : list string;
  combined_token_counts : list num
}.

(** [accumulate([0] + token_counts)], or with [lambda x, y: x + y + 1]. *)
Definition cumulative (combine_whitespace : bool) (token_counts : list num)
  : list num :=
  if combine_whitespace
  then accumulate (fun x y => Num.add (Num.add x y) (Int 1)) (Int 0 :: token_counts)
  else accumulate Num.add (Int 0 :: token_counts).

(** One turn of the [while] loop. *)
Definition merge_body (combine_whitespace : bool) (splits : list string)
  (cum : list num) (st : merge_state) : outcome merge_state :=
  current_token_count <- getitem cum (current_index st) ;;
  let required_token_count := Num.add current_token_count (Int chunk_size) in
  b <- bisect_left cum required_token_count (current_index st) ;;
  let index := Z.min (b - 1) (len splits) in
  let index := if index =? current_index st then index + 1 else index in
  let piece :=
    Str.join (if combine_whitespace then " " else "")
             (slice splits (current_index st) index) in
  next_token_count <- getitem cum (Z.min index (len splits)) ;;
  Ret {| current_index := index;
         merged := merged st ++ [piece];
         combined_token_counts :=
           combined_token_counts st
             ++ [Num.sub next_token_count current_token_count] |}.

(** The index that the search of a turn yields, before the step that forces
    progress: [min(bisect_left(...) - 1, len(splits))]. *)
Definition merge_search (splits : list string) (cum : list num) (current : Z)
  : outcome Z :=
  current_token_count <- getitem cum current ;;
  let required_token_count := Num.add current_token_count (Int chunk_size) in
  b <- bisect_left cum required_token_count current ;;
  Ret (Z.min (b - 1) (len splits)).

(** [while current_index < len(splits): ...], with a budget of turns. *)
Fixpoint merge_while (turns : nat) (combine_whitespace : bool)
  (splits : list string) (cum : list num) (st : merge_state)
  : outcome (list string * list num) :=
  if current_index st <? len splits then
    match turns with
    | O => Loops
    | S turns' =>
        st' <- merge_body combine_whitespace splits cum st ;;
        merge_while turns' combine_whitespace splits cum st'
    end
  else Ret (merged st, combined_token_counts st).

Definition all_oversized (token_counts : list num) : bool :=
  forallb (fun counts => Num.gtb counts (Int chunk_size)) token_counts.

Definition is_empty {A : Type} (l : list A) : bool :=
  match l with [] => true | _ => false end.

Definition _merge_splits (turns : nat) (splits : list string)
  (token_counts : list num) (combine_whitespace : bool)
  : outcome (list string * list num) :=
  if is_empty splits || is_empty token_counts then Ret ([], [])
  else if negb (len splits =? len token_counts) then Raise ValueError
  else if all_oversized token_counts then Ret (splits, token_counts)
  else
    merge_while turns combine_whitespace splits
      (cumulative combine_whitespace token_counts)
      {| current_index := 0; merged := []; combined_token_counts := [] |}.

End Merger.

(** ** Collaborators declared outside the file *)

(** The tokenizer behind [self.tokenizer]: the three methods the chunker calls. *)
Record Tokenizer : Type := {
  count_tokens : string -> Z;
  encode : string -> list Z;
  decode_batch : list (list Z) -> list string
}.

(** [RecursiveLevel] is declared in [chonkie.types]; the record has the
    attributes that [_split] and [_chunk_helper] read.  [custom_delimiters] is
    the truth value of that attribute; [include_delim] is ["prev"], ["next"] or
    anything else. *)
Inductive IncludeDelim : Type := Prev | Next | Neither.

Record RecursiveLevel : Type := {
  whitespace_delimiter : bool;
  custom_delimiters : bool;
  include_delim : IncludeDelim;
  delimiters : option (list string);
  whitespace : bool
}.

Record RecursiveChunk : Type := {
  text : string;
  start_index : nat;
  end_index : nat;
  token_count : num;
  level : nat
}.

(** What [chunk] returns an element of: a [RecursiveChunk], or a plain string
    when [return_type] is ["texts"]. *)
Inductive output : Type :=
| Chunk (c : RecursiveChunk)
| Text (s : string).

(** ** The chunker object

    [chunk_size], [min_characters_per_chunk], [return_type] and
    [recursive_rules] are set by [__init__]; [tokenizer], [_get_token_count]
    and [rules] are attributes the methods read that the base class
    provides. *)
Record RecursiveChunker : Type := {
  tokenizer : Tokenizer;
  _get_token_count : string -> Z;
  rules : list RecursiveLevel;
  recursive_rules : list RecursiveLevel;
  chunk_size : Z;
  min_characters_per_chunk : Z;
  return_type : string
}.

Definition _CHARS_PER_TOKEN : Z := 6.

(** The checks of [__init__], in order; the [isinstance] check on the rules is
    the type of [recursive_rules]. *)
Definition __init__ (tokenizer : Tokenizer) (_get_token_count : string -> Z)
  (rules recursive_rules : list RecursiveLevel) (chunk_size : Z)
  (min_characters_per_chunk : Z) (return_type : string)
  : outcome RecursiveChunker :=
  if chunk_size <=? 0 then Raise ValueError
  else if min_characters_per_chunk <=? 0 then Raise ValueError
  else if negb ((return_type =? "chunks")%string || (return_type =? "texts")%string)
  then Raise ValueError
  else Ret {| tokenizer := tokenizer;
              _get_token_count := _get_token_count;
              rules := rules;
              recursive_rules := recursive_rules;
              chunk_size := chunk_size;
              min_characters_per_chunk := min_characters_per_chunk;
              return_type := return_type |}.

(** ** The estimator, [_estimate_token_count]

    The second component lists the texts handed to [tokenizer.count_tokens]
    during the call.  The [lru_cache] around the method returns the value of an
    earlier call on the same text and is not part of the model. *)
Definition _estimate_token_count_calls (self : RecursiveChunker) (text : string)
  : num * list string :=
  let estimate := Z.max 1 (Str.strlen text / _CHARS_PER_TOKEN) in
  if estimate >? chunk_size self
  then (PInf, [])
  else (Int (count_tokens (tokenizer self) text), [text]).

Definition _estimate_token_count (self : RecursiveChunker) (text : string) : num :=
  fst (_estimate_token_count_calls self text).

(** ** The splitter, [_split] *)

Definition default_sep : string := "<=CHONKIE_INTERNAL_SEP=>".

(** The loop "Merge short splits" of the delimiter branch. *)
Fixpoint merge_short (self : RecursiveChunker) (splits : list string)
  (current : string) (merged : list string) : list string :=
  match splits with
  | [] => if Str.nonempty current then merged ++ [current] else merged
  | split :: rest =>
      let '(current, merged) :=
        if Str.strlen split <? min_characters_per_chunk self
        then ((current ++ split)%string, merged)
        else if Str.nonempty current
             then (EmptyString, merged ++ [(current ++ split)%string])
             else (current, merged ++ [split]) in
      if Str.strlen current >=? min_characters_per_chunk self
      then merge_short self rest EmptyString (merged ++ [current])
      else merge_short self rest current merged
  end.

(** [[encoded[i : i + size] for i in range(0, len(encoded), size)]] for
    [size > 0]. *)
Fixpoint windows (turns : nat) (size : nat) (encoded : list Z) : list (list Z) :=
  match turns, encoded with
  | S turns', _ :: _ => firstn size encoded :: windows turns' size (skipn size encoded)
  | _, _ => []
  end.

Definition token_windows (self : RecursiveChunker) (encoded : list Z)
  : outcome (list (list Z)) :=
  if chunk_size self =? 0 then Raise ValueError
  else if chunk_size self <? 0 then Ret []
  else Ret (windows (List.length encoded) (Z.to_nat (chunk_size self)) encoded).

Definition rewrite_delimiters (text : string) (recursive_level : RecursiveLevel)
  (sep : string) (ds : list string) : string :=
  match include_delim recursive_level with
  | Prev => fold_left (fun text delimiter =>
                         Str.replace text delimiter (delimiter ++ sep)%string) ds text
  | Next => fold_left (fun text delimiter =>
                         Str.replace text delimiter (sep ++ delimiter)%string) ds text
  | Neither => fold_left (fun text delimiter => Str.replace text delimiter sep) ds text
  end.

Definition _split (self : RecursiveChunker) (text : string)
  (recursive_level : RecursiveLevel) (sep : string) : outcome (list string) :=
  if whitespace_delimiter recursive_level then Str.split text " "
  else if custom_delimiters recursive_level then
    match delimiters recursive_level with
    | None => Raise TypeError
    | Some ds =>
        let text := rewrite_delimiters text recursive_level sep ds in
        pieces <- Str.split text sep ;;
        let splits := filter Str.nonempty pieces in
        Ret (merge_short self splits EmptyString [])
    end
  else
    let encoded := encode (tokenizer self) text in
    token_splits <- token_windows self encoded ;;
    Ret (decode_batch (tokenizer self) token_splits).

(** ** The materializer, [_convert_to_chunk]

    The second component is what the call prints. *)
Definition diagnostic (text : string) : string :=
  ("Error finding start and end index for text '" ++ text
   ++ "' in full_text. Error: substring not found"
   ++ "Setting start and end index to 0.")%string.

Definition _convert_to_chunk (self : RecursiveChunker) (text : string)
  (token_count : num) (level : nat) (full_text : option string)
  (last_chunk_end_index : nat) : RecursiveChunk * list string :=
  let full_text := match full_text with None => text | Some t => t end in
  match Str.index text (Str.drop last_chunk_end_index full_text) with
  | Ret i =>
      let start_index := (last_chunk_end_index + i)%nat in
      let end_index := (start_index + String.length text)%nat in
      ({| text := text; start_index := start_index; end_index := end_index;
          token_count := token_count; level := level |}, [])
  | _ =>
      ({| text := text; start_index := 0; end_index := 0;
          token_count := token_count; level := level |}, [diagnostic text])
  end.

(** ** The driver, [_chunk_helper] *)

Definition no_delim (curr_rule : RecursiveLevel) : bool :=
  match delimiters curr_rule with
  | None => negb (whitespace curr_rule)
  | Some _ => false
  end.

(** The loop "Chunk long merged splits" over [zip(merged, combined_token_counts)];
    [recur] is the call [self._chunk_helper(split, level + 1, full_text)]. *)
Fixpoint chunk_loop (self : RecursiveChunker)
  (recur : string -> outcome (list output * list string))
  (curr_rule : RecursiveLevel) (level : nat) (merged : list string)
  (full_text : string) (items : list (string * num))
  : outcome (list output * list string) :=
  match items with
  | [] => Ret ([], [])
  | (split, token_count) :: items' =>
      here <-
        (if Num.gtb token_count (Int (chunk_size self)) then recur split
         else if (return_type self =? "chunks")%string then
           let '(c, printed) :=
             _convert_to_chunk self split token_count level
               (Some (if no_delim curr_rule then Str.join "" merged else full_text))
               0 in
           Ret ([Chunk c], printed)
         else if (return_type self =? "texts")%string then Ret ([Text split], [])
         else Ret ([], [])) ;;
      rest <- chunk_loop self recur curr_rule level merged full_text items' ;;
      Ret (fst here ++ fst rest, snd here ++ snd rest)
  end.

(** [turns] bounds the turns of each merge loop; [depth] bounds the nesting of
    calls that go on to split. *)
Fixpoint _chunk_helper (self : RecursiveChunker) (turns : nat) (depth : nat)
  (text : string) (level : nat) (full_text : option string)
  : outcome (list output * list string) :=
  if negb (Str.nonempty text) then Ret ([], [])
  else if (List.length (rules self) <=? level)%nat then
    if (return_type self =? "texts")%string then Ret ([Text text], [])
    else if (return_type self =? "chunks")%string then
      let '(c, printed) :=
        _convert_to_chunk self text (Int (_get_token_count self text)) level
          full_text 0 in
      Ret ([Chunk c], printed)
    else Raise ValueError
  else
    match depth with
    | O => TooDeep
    | S depth' =>
        let full_text := match full_text with None => text | Some t => t end in
        curr_rule <- match nth_error (recursive_rules self) level with
                     | Some r => Ret r
                     | None => Raise IndexError
                     end ;;
        splits <- _split self text curr_rule default_sep ;;
        let token_counts := map (_estimate_token_count self) splits in
        mc <- match delimiters curr_rule, whitespace curr_rule with
              | None, false => Ret (splits, token_counts)
              | None, true =>
                  _merge_splits (chunk_size self) turns splits token_counts true
              | Some _, _ =>
                  _merge_splits (chunk_size self) turns splits token_counts false
              end ;;
        chunk_loop self
          (fun split => _chunk_helper self turns depth' split (S level) (Some full_text))
          curr_rule level (fst mc) full_text (combine (fst mc) (snd mc))
    end.

(** [chunk(text)].  The nesting budget is the number of rules: a call at a level
    past the last rule returns without splitting. *)
Definition chunk (self : RecursiveChunker) (turns : nat) (text : string)
  : outcome (list output * list string) :=
  _chunk_helper self turns (List.length (rules self)) text 0 (Some text).


(** ** Concrete collaborators used in the examples *)

(** A tokenizer with one token per character. *)
Definition char_tokenizer : Tokenizer := {|
  count_tokens := Str.strlen;
  encode := fun s => map (fun c => Z.of_N (N_of_ascii c)) (list_ascii_of_string s);
  decode_batch :=
    map (fun ids => string_of_list_ascii (map (fun z => ascii_of_N (Z.to_N z)) ids))
|}.

Definition whitespace_level : RecursiveLevel := {|
  whitespace_delimiter := true; custom_delimiters := false;
  include_delim := Neither; delimiters := None; whitespace := true |}.

Definition delimiter_level (ds : list string) (p : IncludeDelim) : RecursiveLevel := {|
  whitespace_delimiter := false; custom_delimiters := true;
  include_delim := p; delimiters := Some ds; whitespace := false |}.

Definition token_level : RecursiveLevel := {|
  whitespace_delimiter := false; custom_delimiters := false;
  include_delim := Neither; delimiters := None; whitespace := false |}.

Definition char_chunker (levels : list RecursiveLevel) (size min_chars : Z)
  : RecursiveChunker := {|
  tokenizer := char_tokenizer;
  _get_token_count := Str.strlen;
  rules := levels;
  recursive_rules := levels;
  chunk_size := size;
  min_characters_per_chunk := min_chars;
  return_type := "chunks" |}.

(** A whitespace rule alone, three tokens to a chunk. *)
Definition word_chunker : RecursiveChunker := char_chunker [whitespace_level] 3 1.

(** A sentence rule and then token windows, one token to a chunk. *)
Definition sentence_chunker : RecursiveChunker :=
  char_chunker [delimiter_level ["."%string] Prev; token_level] 1 1.

(** ** The merge loop, seen from outside *)

(** The states a run of the merge loop goes through. *)
Inductive reachable (cs : Z) (cw : bool) (splits : list string) (cum : list num)
  : merge_state -> Prop :=
| reachable_start :
    reachable cs cw splits cum
      {| current_index := 0; merged := []; combined_token_counts := [] |}
| reachable_turn (st st' : merge_state) :
    reachable cs cw splits cum st ->
    current_index st < len splits ->
    merge_body cs cw splits cum st = Ret st' ->
    reachable cs cw splits cum st'.

(** The step of the running sums: [x + y], or [x + y + 1]. *)
Definition cumulative_step (combine_whitespace : bool) (x y : num) : num :=
  if combine_whitespace then Num.add (Num.add x y) (Int 1) else Num.add x y.

(** The farthest index of [cum], its first entry being index [i], whose entry
    satisfies [p]. *)
Fixpoint farthest (p : num -> bool) (cum : list num) (i : Z) : option Z :=
  match cum with
  | [] => None
  | x :: cum' =>
      match farthest p cum' (i + 1) with
      | Some j => Some j
      | None => if p x then Some i else None
      end
  end.

(** The boundary in the words of the specification: "the farthest index whose
    cumulative sum does not exceed [current + chunk_size]". *)
Definition spec_boundary (cs : Z) (cum : list num) (current : Z) : outcome (option Z) :=
  current_token_count <- getitem cum current ;;
  Ret (farthest (fun x => Num.leb x (Num.add current_token_count (Int cs))) cum 0).

(** A group of consecutive splits with their token counts: the text it is
    merged into, and the token count recorded for it. *)
Definition group_text (combine_whitespace : bool) (g : list (string * num)) : string :=
  Str.join (if combine_whitespace then " " else "") (map fst g).

Definition group_count (combine_whitespace : bool) (g : list (string * num)) : num :=
  Num.add (Num.sum (map snd g)) (Int (if combine_whitespace then len g else 0)).

(** A level whose delimiter branch has delimiters to loop over. *)
Definition level_has_delimiters (r : RecursiveLevel) : Prop :=
  whitespace_delimiter r = false -> custom_delimiters r = true ->
  delimiters r <> None.

(** [text] occurs in [full_text] at or after position [from]: for some
    [i >= from], [full_text[i : i + len(text)] == text]. *)
Definition occurs_from (text full_text : string) (from : nat) : Prop :=
  exists i, (from <= i)%nat /\ Str.slice full_text i (i + String.length text) = text.

(** * Properties *)

(** ** Numbers *)

Lemma add_zero_r (x : num) : Num.add x (Int 0) = x.
Proof. destruct x; simpl; try reflexivity. now rewrite Z.add_0_r. Qed.

Lemma add_count (x y : num) :
  Num.is_count x -> Num.is_count y -> Num.is_count (Num.add x y).
Proof. destruct x, y; simpl; tauto. Qed.

Lemma add_pinf_count (y : num) : Num.is_count y -> Num.add PInf y = PInf.
Proof. destruct y; simpl; tauto. Qed.

Lemma ltb_int_count (x : num) (z : Z) :
  Num.is_count x -> Num.ltb x (Int z) = true -> Num.is_int x.
Proof. destruct x; simpl; auto; discriminate. Qed.

Lemma ltb_pinf_false (x : num) : Num.is_count x -> Num.ltb PInf x = false.
Proof. destruct x; simpl; tauto. Qed.

Lemma nonneg_count (x : num) : Num.is_nonneg x -> Num.is_count x.
Proof. destruct x; simpl; tauto. Qed.

Lemma sum_count (l : list num) : Forall Num.is_count l -> Num.is_count (Num.sum l).
Proof.
  induction 1 as [|y l Hy _ IH]; [exact I|]. cbn. now apply add_count.
Qed.

Lemma count_cases (x : num) : Num.is_count x -> Num.is_int x \/ x = PInf.
Proof. destruct x; simpl; auto; tauto. Qed.

Lemma not_gtb_leb (x : num) (z : Z) :
  x <> NaN -> Num.gtb x (Int z) = false -> Num.leb x (Int z) = true.
Proof.
  destruct x as [a| | |]; unfold Num.gtb; simpl; intros Hx H;
    try reflexivity; try discriminate; try congruence.
  apply Z.leb_le. apply Z.ltb_ge in H. exact H.
Qed.

(** ** Lists *)

Lemma len_nonneg {A : Type} (l : list A) : 0 <= len l.
Proof. unfold len. lia. Qed.

Lemma getitem_nth {A : Type} (l : list A) (i : Z) (d : A) :
  0 <= i < len l -> getitem l i = Ret (nth (Z.to_nat i) l d).
Proof.
  intros Hi. unfold getitem.
  destruct (i <? 0) eqn:Hneg; [apply Z.ltb_lt in Hneg; lia|].
  replace ((0 <=? i) && (i <? len l)) with true
    by (symmetry; apply andb_true_iff; split; [apply Z.leb_le | apply Z.ltb_lt]; lia).
  rewrite (nth_error_nth' l d); [reflexivity|].
  unfold len in Hi. lia.
Qed.

Lemma clip_inside {A : Type} (l : list A) (i : Z) :
  0 <= i <= len l -> clip l i = Z.to_nat i.
Proof.
  intros Hi. unfold clip.
  destruct (i <? 0) eqn:Hneg; [apply Z.ltb_lt in Hneg; lia|].
  f_equal. lia.
Qed.

Lemma slice_inside {A : Type} (l : list A) (a b : Z) :
  0 <= a <= len l -> 0 <= b <= len l ->
  slice l a b = firstn (Z.to_nat b - Z.to_nat a) (skipn (Z.to_nat a) l).
Proof. intros Ha Hb. unfold slice. now rewrite !clip_inside. Qed.

Lemma firstn_plus {A : Type} (n k : nat) (l : list A) :
  firstn (n + k) l = firstn n l ++ firstn k (skipn n l).
Proof.
  revert l. induction n as [|n IH]; intros l; [reflexivity|].
  destruct l as [|x l]; simpl.
  - now rewrite firstn_nil.
  - f_equal. apply IH.
Qed.

Lemma firstn_slice {A : Type} (l : list A) (a b : Z) :
  0 <= a <= b -> b <= len l ->
  firstn (Z.to_nat b) l = firstn (Z.to_nat a) l ++ slice l a b.
Proof.
  intros Hab Hb. rewrite slice_inside by lia.
  replace (Z.to_nat b) with (Z.to_nat a + (Z.to_nat b - Z.to_nat a))%nat at 1 by lia.
  apply firstn_plus.
Qed.

Lemma Forall_firstn {A : Type} (P : A -> Prop) (k : nat) (l : list A) :
  Forall P l -> Forall P (firstn k l).
Proof.
  intros H. rewrite <- (firstn_skipn k l) in H. apply Forall_app in H. tauto.
Qed.

Lemma Forall_skipn {A : Type} (P : A -> Prop) (k : nat) (l : list A) :
  Forall P l -> Forall P (skipn k l).
Proof.
  intros H. rewrite <- (firstn_skipn k l) in H. apply Forall_app in H. tauto.
Qed.

(** ** [accumulate] *)

Lemma length_accumulate_from {A : Type} (f : A -> A -> A) (l : list A) (acc : A) :
  List.length (accumulate_from f acc l) = S (List.length l).
Proof.
  revert acc. induction l as [|y l IH]; intros acc; simpl; [reflexivity|].
  now rewrite IH.
Qed.

Lemma nth_accumulate_from {A : Type} (f : A -> A -> A) (l : list A) (acc d : A)
  (i : nat) :
  (i <= List.length l)%nat ->
  nth i (accumulate_from f acc l) d = fold_left f (firstn i l) acc.
Proof.
  revert acc i. induction l as [|y l IH]; intros acc i Hi.
  - simpl in Hi. assert (i = O) by lia. subst. reflexivity.
  - destruct i as [|i]; [reflexivity|].
    simpl in Hi. simpl. apply IH. lia.
Qed.

(** ** [bisect_left] *)

Section Bisect.

Variables (a : list num) (x : num).

Let below (i : Z) : bool := Num.ltb (nth (Z.to_nat i) a NaN) x.

Lemma bisect_loop_spec (turns : nat) : forall lo hi,
  0 <= lo <= hi -> hi - lo <= Z.of_nat turns ->
  let b := bisect_loop turns a x lo hi in
  lo <= b <= hi /\ (b = lo \/ below (b - 1) = true) /\ (b = hi \/ below b = false).
Proof.
  induction turns as [|turns IH]; intros lo hi Hlo Hturns.
  - simpl. assert (lo = hi) by lia. subst. repeat split; auto; lia.
  - cbn [bisect_loop]. destruct (lo <? hi) eqn:Hlt.
    + apply Z.ltb_lt in Hlt.
      assert (Hmid : lo <= (lo + hi) / 2 < hi).
      { split; [apply Z.div_le_lower_bound | apply Z.div_lt_upper_bound]; lia. }
      cbv zeta. fold (below ((lo + hi) / 2)).
      destruct (below ((lo + hi) / 2)) eqn:Hb.
      * specialize (IH ((lo + hi) / 2 + 1) hi ltac:(lia) ltac:(lia)).
        cbv zeta in IH. destruct IH as (Hr & [He|Hp] & Hq).
        -- split; [lia|]. split; [|exact Hq]. right. rewrite He.
           replace ((lo + hi) / 2 + 1 - 1) with ((lo + hi) / 2) by lia. exact Hb.
        -- split; [lia|]. split; [now right | exact Hq].
      * specialize (IH lo ((lo + hi) / 2) ltac:(lia) ltac:(lia)).
        cbv zeta in IH. destruct IH as (Hr & Hp & [He|Hq]).
        -- split; [lia|]. split; [exact Hp|]. right. rewrite He. exact Hb.
        -- split; [lia|]. split; [exact Hp | now right].
    + apply Z.ltb_ge in Hlt. assert (lo = hi) by lia. subst. repeat split; auto; lia.
Qed.

Lemma bisect_left_spec (lo : Z) :
  0 <= lo <= len a ->
  exists b, bisect_left a x lo = Ret b /\ lo <= b <= len a
            /\ (b = lo \/ below (b - 1) = true) /\ (b = len a \/ below b = false).
Proof.
  intros Hlo. unfold bisect_left.
  destruct (lo <? 0) eqn:Hneg; [apply Z.ltb_lt in Hneg; lia|].
  eexists. split; [reflexivity|].
  apply bisect_loop_spec; lia.
Qed.

End Bisect.

(** ** Strings *)

Lemma append_nil_r (s : string) : (s ++ "")%string = s.
Proof. induction s as [|c s IH]; simpl; [reflexivity | now rewrite IH]. Qed.

Lemma append_assoc (s t u : string) : ((s ++ t) ++ u)%string = (s ++ t ++ u)%string.
Proof. induction s as [|c s IH]; simpl; [reflexivity | now rewrite IH]. Qed.

Lemma length_append (s t : string) :
  String.length (s ++ t) = (String.length s + String.length t)%nat.
Proof. induction s as [|c s IH]; simpl; [reflexivity | now rewrite IH]. Qed.

Lemma join_empty_cons (x : string) (l : list string) :
  Str.join "" (x :: l) = (x ++ Str.join "" l)%string.
Proof.
  unfold Str.join. destruct l as [|y l]; simpl; [now rewrite append_nil_r | reflexivity].
Qed.

Lemma join_empty_app (l1 l2 : list string) :
  Str.join "" (l1 ++ l2) = (Str.join "" l1 ++ Str.join "" l2)%string.
Proof.
  induction l1 as [|x l1 IH]; [reflexivity|].
  rewrite <- app_comm_cons, !join_empty_cons, IH. now rewrite append_assoc.
Qed.

(** ** [farthest] *)

Lemma farthest_none (p : num -> bool) (l : list num) : forall i0,
  (forall k, 0 <= k < len l -> p (nth (Z.to_nat k) l NaN) = false) ->
  farthest p l i0 = None.
Proof.
  induction l as [|x l IH]; intros i0 Hall; [reflexivity|].
  cbn [farthest]. rewrite IH.
  - specialize (Hall 0). cbn in Hall. rewrite Hall; [reflexivity|].
    unfold len. cbn [List.length]. lia.
  - intros k Hk. specialize (Hall (k + 1)).
    replace (Z.to_nat (k + 1)) with (S (Z.to_nat k)) in Hall by lia.
    apply Hall. unfold len in *. cbn [List.length]. lia.
Qed.

Lemma farthest_last (p : num -> bool) (l : list num) : forall i0 j,
  0 <= j < len l ->
  p (nth (Z.to_nat j) l NaN) = true ->
  (forall k, j < k < len l -> p (nth (Z.to_nat k) l NaN) = false) ->
  farthest p l i0 = Some (i0 + j).
Proof.
  induction l as [|x l IH]; intros i0 j Hj Hp Hafter.
  - unfold len in Hj. cbn in Hj. lia.
  - cbn [farthest]. assert (Hlen : len (x :: l) = len l + 1).
    { unfold len. cbn [List.length]. lia. }
    destruct (Z.eq_dec j 0) as [->|Hj0].
    + rewrite farthest_none.
      * cbn in Hp. rewrite Hp. f_equal. lia.
      * intros k Hk. specialize (Hafter (k + 1)).
        replace (Z.to_nat (k + 1)) with (S (Z.to_nat k)) in Hafter by lia.
        apply Hafter. lia.
    + rewrite (IH (i0 + 1) (j - 1)).
      * f_equal. lia.
      * lia.
      * replace (Z.to_nat j) with (S (Z.to_nat (j - 1))) in Hp by lia. exact Hp.
      * intros k Hk. specialize (Hafter (k + 1)).
        replace (Z.to_nat (k + 1)) with (S (Z.to_nat k)) in Hafter by lia.
        apply Hafter. lia.
Qed.

(** ** The running sums *)

Lemma plus_count (cw : bool) (x y : num) :
  Num.is_count x -> Num.is_count y -> Num.is_count (cumulative_step cw x y).
Proof.
  unfold cumulative_step. destruct cw; intros; repeat apply add_count; simpl; auto.
Qed.

Lemma fold_plus_count (cw : bool) (l : list num) : forall acc,
  Forall Num.is_count l -> Num.is_count acc ->
  Num.is_count (fold_left (cumulative_step cw) l acc).
Proof.
  induction l as [|y l IH]; intros acc Hl Hacc; [exact Hacc|].
  inversion Hl; subst. simpl. apply IH; [assumption|]. now apply plus_count.
Qed.

Lemma fold_plus_pinf (cw : bool) (l : list num) :
  Forall Num.is_count l -> fold_left (cumulative_step cw) l PInf = PInf.
Proof.
  induction l as [|y l IH]; intros Hl; [reflexivity|].
  inversion Hl; subst. simpl.
  replace (cumulative_step cw PInf y) with PInf; [now apply IH|].
  unfold cumulative_step. destruct cw; now rewrite ?add_pinf_count by (simpl; auto).
Qed.

Lemma fold_plus_int (cw : bool) (l : list num) : forall acc,
  Forall Num.is_int l -> Num.is_int acc ->
  Num.is_int (fold_left (cumulative_step cw) l acc).
Proof.
  induction l as [|y l IH]; intros acc Hl Hacc; [exact Hacc|].
  inversion Hl; subst. simpl. apply IH; [assumption|].
  unfold cumulative_step. destruct acc, y, cw; simpl in *; auto.
Qed.

Lemma plus_keeps_above (cw : bool) (x y r : num) :
  Num.is_count x -> Num.is_nonneg y -> Num.is_count r ->
  Num.ltb x r = false -> Num.ltb (cumulative_step cw x y) r = false.
Proof.
  unfold cumulative_step. destruct x, y, r, cw; simpl; try tauto; try discriminate;
    intros _ Hy _ H; apply Z.ltb_ge in H; apply Z.ltb_ge; lia.
Qed.

Lemma fold_plus_keeps_above (cw : bool) (r : num) (l : list num) : forall acc,
  Forall Num.is_nonneg l -> Num.is_count acc -> Num.is_count r ->
  Num.ltb acc r = false -> Num.ltb (fold_left (cumulative_step cw) l acc) r = false.
Proof.
  induction l as [|y l IH]; intros acc Hl Hacc Hr Habove; [exact Habove|].
  inversion Hl; subst. simpl. apply IH; try assumption.
  - apply plus_count; [assumption | now apply nonneg_count].
  - now apply plus_keeps_above.
Qed.

Lemma fold_plus_sum (cw : bool) (l : list num) : forall acc,
  Forall Num.is_count l -> Num.is_count acc ->
  fold_left (cumulative_step cw) l acc
  = Num.add (Num.add acc (Num.sum l)) (Int (if cw then len l else 0)).
Proof.
  induction l as [|y l IH]; intros acc Hl Hacc.
  - cbn. destruct cw; cbn; now rewrite !add_zero_r.
  - inversion Hl as [|? ? Hy Hl']; subst. cbn [fold_left].
    rewrite IH by (try assumption; now apply plus_count).
    pose proof (sum_count l Hl') as Hs. cbn [Num.sum fold_right]. fold (Num.sum l).
    assert (Hlen' : len (y :: l) = len l + 1) by (unfold len; cbn [List.length]; lia).
    rewrite Hlen'. unfold cumulative_step.
    destruct acc, y, (Num.sum l), cw; simpl in *; try tauto; f_equal; lia.
Qed.

(** ** The merge loop *)

Section MergerFacts.

Variables (cs : Z) (cw : bool) (splits : list string) (counts : list num).
Hypothesis Hcs : 0 < cs.
Hypothesis Hlen : List.length splits = List.length counts.
Hypothesis Hcounts : Forall Num.is_count counts.

Let n : Z := len splits.
Let cum : list num := cumulative cw counts.
Let cumn (i : Z) : num := nth (Z.to_nat i) cum NaN.

Lemma cumulative_from : cum = accumulate_from (cumulative_step cw) (Int 0) counts.
Proof. unfold cum, cumulative, cumulative_step. destruct cw; reflexivity. Qed.

Lemma len_cum : len cum = n + 1.
Proof.
  rewrite cumulative_from. unfold len, n, len.
  rewrite length_accumulate_from, Hlen. lia.
Qed.

Lemma cumn_fold (i : Z) :
  0 <= i <= n ->
  cumn i = fold_left (cumulative_step cw) (firstn (Z.to_nat i) counts) (Int 0).
Proof.
  intros Hi. unfold cumn. rewrite cumulative_from.
  apply nth_accumulate_from. unfold n, len in Hi. lia.
Qed.

Lemma Forall_firstn_counts (k : nat) : Forall Num.is_count (firstn k counts).
Proof. now apply Forall_firstn. Qed.

Lemma cumn_count (i : Z) : 0 <= i <= n -> Num.is_count (cumn i).
Proof.
  intros Hi. rewrite cumn_fold by exact Hi.
  apply fold_plus_count; [apply Forall_firstn_counts | exact I].
Qed.

Lemma cumn_zero : cumn 0 = Int 0.
Proof.
  rewrite cumn_fold; [reflexivity | unfold n; pose proof (len_nonneg splits); lia].
Qed.

(** Once a running sum is [inf], every later one is. *)
Lemma cumn_pinf_later (i j : Z) :
  0 <= i <= j -> j <= n -> cumn i = PInf -> cumn j = PInf.
Proof.
  intros Hij Hj Hi. rewrite cumn_fold in * by lia.
  replace (Z.to_nat j) with (Z.to_nat i + (Z.to_nat j - Z.to_nat i))%nat by lia.
  rewrite firstn_plus, fold_left_app, Hi.
  apply fold_plus_pinf. now apply Forall_firstn, Forall_skipn.
Qed.

Lemma cumn_int_earlier (i j : Z) :
  0 <= i <= j -> j <= n -> Num.is_int (cumn j) -> Num.is_int (cumn i).
Proof.
  intros Hij Hj Hint.
  destruct (count_cases (cumn i) (cumn_count i ltac:(lia))) as [H|H]; [exact H|].
  rewrite (cumn_pinf_later i j Hij Hj H) in Hint. contradiction.
Qed.

Lemma getitem_cum (i : Z) : 0 <= i <= n -> getitem cum i = Ret (cumn i).
Proof. intros Hi. apply getitem_nth. rewrite len_cum. lia. Qed.

(** The positions the loop can be at: every running sum before [c] is an
    integer. *)
Let inv (c : Z) : Prop :=
  0 <= c <= n /\ forall i, 0 <= i < c -> Num.is_int (cumn i).

Lemma inv_zero : inv 0.
Proof. split; [unfold n; pose proof (len_nonneg splits); lia | intros; lia]. Qed.

Lemma merge_search_spec (c : Z) :
  inv c -> c < n ->
  let required := Num.add (cumn c) (Int cs) in
  exists j, merge_search cs splits cum c = Ret j
    /\ c - 1 <= j <= n /\ 0 <= j
    /\ Num.is_int (cumn j)
    /\ Num.ltb (cumn j) required = true
    /\ (j = n \/ Num.ltb (cumn (j + 1)) required = false)
    /\ (Num.is_int (cumn c) -> c <= j)
    /\ (cumn c = PInf -> j = c - 1).
Proof.
  intros [Hc Hbefore] Hcn required. unfold merge_search.
  rewrite getitem_cum by lia. cbn [bind]. fold required.
  destruct (bisect_left_spec cum required c) as (b & Hb & Hrange & Hlow & Hhigh).
  { rewrite len_cum. lia. }
  rewrite Hb. cbn [bind]. rewrite len_cum in *. fold n. fold (cumn (b - 1)) in Hlow.
  fold (cumn b) in Hhigh.
  destruct (count_cases (cumn c) (cumn_count c ltac:(lia))) as [Hint|Hinf].
  - (* an integer running sum: the search moves past [c] *)
    assert (Hbelow : Num.ltb (cumn c) required = true).
    { unfold required. destruct (cumn c); try contradiction. simpl.
      apply Z.ltb_lt. lia. }
    assert (Hbc : b <> c).
    { intros ->. destruct Hhigh as [H|H]; [lia | congruence]. }
    destruct Hlow as [H|Hlow]; [contradiction|].
    exists (b - 1). replace (Z.min (b - 1) n) with (b - 1) by lia.
    split; [reflexivity|]. split; [lia|]. split; [lia|].
    assert (Hreq : exists z, required = Int z).
    { unfold required. destruct (cumn c); try contradiction. simpl. eauto. }
    destruct Hreq as [z Hz].
    split.
    { rewrite Hz in Hlow. eapply ltb_int_count; [apply cumn_count; lia | exact Hlow]. }
    split; [exact Hlow|].
    split. { destruct Hhigh as [H|H]; [left; lia | right].
             now replace (b - 1 + 1) with b by lia. }
    split; [intros _; lia|].
    intros H. rewrite H in Hint. contradiction.
  - (* an infinite running sum: the search stays at [c] *)
    assert (Hreq : required = PInf) by (unfold required; now rewrite Hinf).
    assert (Hc0 : 0 < c).
    { destruct (Z.eq_dec c 0) as [->|]; [|lia]. rewrite cumn_zero in Hinf. discriminate. }
    assert (Hbc : b = c).
    { destruct Hlow as [H|Hlow]; [exact H|].
      destruct (Z.eq_dec b c) as [H|Hne]; [exact H | exfalso].
      rewrite (cumn_pinf_later c (b - 1)) in Hlow by (try assumption; lia).
      rewrite Hreq in Hlow. discriminate. }
    subst b. exists (c - 1). replace (Z.min (c - 1) n) with (c - 1) by lia.
    split; [reflexivity|]. split; [lia|]. split; [lia|].
    assert (Hprev : Num.is_int (cumn (c - 1))) by (apply Hbefore; lia).
    split; [exact Hprev|].
    split. { rewrite Hreq. destruct (cumn (c - 1)); try contradiction. reflexivity. }
    split. { right. replace (c - 1 + 1) with c by lia. rewrite Hinf, Hreq. reflexivity. }
    split; [|reflexivity].
    intros H. rewrite Hinf in H. contradiction.
Qed.


Lemma merge_body_spec (st : merge_state) :
  let c := current_index st in
  inv c -> c < n ->
  exists j, merge_search cs splits cum c = Ret j /\
    let c' := if j =? c then j + 1 else j in
    merge_body cs cw splits cum st
    = Ret {| current_index := c';
             merged := merged st
                       ++ [Str.join (if cw then " " else "") (slice splits c c')];
             combined_token_counts :=
               combined_token_counts st ++ [Num.sub (cumn c') (cumn c)] |}
    /\ inv c'
    /\ Num.sub (cumn c') (cumn c) <> NaN
    /\ (Num.is_int (cumn c) -> c < c')
    /\ (cumn c = PInf -> c' = c - 1).
Proof.
  intros c Hinv Hcn.
  destruct (merge_search_spec c Hinv Hcn)
    as (j & Hj & Hrange & Hj0 & Hjint & _ & _ & Hfwd & Hback).
  exists j. split; [exact Hj|]. intros c'.
  assert (Hc' : 0 <= c' <= n /\ Num.is_int (cumn c') \/ (j = c /\ c' = c + 1)).
  { unfold c'. destruct (j =? c) eqn:E.
    - apply Z.eqb_eq in E. right. lia.
    - left. split; [lia | exact Hjint]. }
  pose proof (proj1 Hinv) as Hc0.
  assert (Hc'n : 0 <= c' <= n) by (destruct Hc' as [[H _]|[_ H]]; lia).
  split.
  { unfold merge_body. unfold merge_search in Hj. fold c. destruct Hinv as [Hc _].
    rewrite getitem_cum in * by lia. cbn [bind] in *.
    destruct (bisect_left cum _ c) as [b| | |]; try discriminate.
    cbn [bind] in *. injection Hj as Hj. fold n in Hj |- *. rewrite Hj. fold c'.
    replace (Z.min c' n) with c' by lia.
    rewrite getitem_cum by lia. reflexivity. }
  destruct (count_cases (cumn c) (cumn_count c (proj1 Hinv))) as [Hint|Hinf].
  - specialize (Hfwd Hint).
    assert (Hlt : c < c').
    { unfold c'.
      destruct (j =? c) eqn:E; [apply Z.eqb_eq in E|apply Z.eqb_neq in E]; lia. }
    split.
    { split; [exact Hc'n|]. intros i Hi.
      destruct Hc' as [[_ H]|[Hjc ->]].
      - apply (cumn_int_earlier i c'); [lia | lia | exact H].
      - apply (cumn_int_earlier i c); [lia | lia | exact Hint]. }
    split.
    { pose proof (cumn_count c' Hc'n) as Hcnt.
      destruct (cumn c); try contradiction. destruct (cumn c'); try contradiction;
        discriminate. }
    split; [intros _; exact Hlt|].
    intros H. rewrite H in Hint. contradiction.
  - specialize (Hback Hinf).
    assert (Hc'eq : c' = c - 1).
    { unfold c'. destruct (j =? c) eqn:E; [apply Z.eqb_eq in E|]; lia. }
    assert (Hprev : Num.is_int (cumn (c - 1))).
    { rewrite <- Hback. exact Hjint. }
    split.
    { split; [exact Hc'n|]. intros i Hi.
      apply (cumn_int_earlier i (c - 1)); [lia | lia | exact Hprev]. }
    split.
    { rewrite Hc'eq, Hinf. destruct (cumn (c - 1)); try contradiction. discriminate. }
    split; [|intros _; exact Hc'eq].
    intros H. rewrite Hinf in H. contradiction.
Qed.

(** No [nan] among the counts of a run that returns. *)
Lemma merge_while_counts (turns : nat) : forall st m cmb,
  inv (current_index st) ->
  Forall (fun x => x <> NaN) (combined_token_counts st) ->
  merge_while cs turns cw splits cum st = Ret (m, cmb) ->
  Forall (fun x => x <> NaN) cmb.
Proof.
  induction turns as [|turns IH]; intros st m cmb Hinv Hst Hrun;
    cbn [merge_while] in Hrun; fold n in Hrun;
    destruct (current_index st <? n) eqn:Hlt;
    try discriminate; try (injection Hrun as <- <-; exact Hst).
  apply Z.ltb_lt in Hlt.
  destruct (merge_body_spec st Hinv Hlt) as (j & _ & Hbody & Hinv' & Hnan & _).
  rewrite Hbody in Hrun. cbn [bind] in Hrun.
  apply IH in Hrun; [exact Hrun | exact Hinv' |].
  cbn [combined_token_counts]. apply Forall_app. split; [exact Hst|].
  constructor; [exact Hnan | constructor].
Qed.

(** When every running sum before the last is an integer the loop moves
    forward at every turn, so [n - c] turns finish it. *)
Lemma merge_while_forward (turns : nat) : forall st,
  (forall i, 0 <= i < n -> Num.is_int (cumn i)) ->
  inv (current_index st) ->
  n - current_index st <= Z.of_nat turns ->
  exists m cmb, merge_while cs turns cw splits cum st = Ret (m, cmb).
Proof.
  induction turns as [|turns IH]; intros st Hall Hinv Hturns;
    cbn [merge_while]; fold n; destruct (current_index st <? n) eqn:Hlt;
    try (do 2 eexists; reflexivity); apply Z.ltb_lt in Hlt; [lia|].
  destruct (merge_body_spec st Hinv Hlt) as (j & _ & Hbody & Hinv' & _ & Hfwd & _).
  specialize (Hfwd (Hall _ (conj (proj1 (proj1 Hinv)) Hlt))).
  rewrite Hbody. cbn [bind]. apply IH; [exact Hall | exact Hinv' | cbn; lia].
Qed.

(** Then, with [combine_whitespace = False], the joined pieces are the joined
    splits. *)
Lemma merge_while_join (turns : nat) : forall st m cmb,
  cw = false ->
  (forall i, 0 <= i < n -> Num.is_int (cumn i)) ->
  inv (current_index st) ->
  Str.join "" (merged st) = Str.join "" (firstn (Z.to_nat (current_index st)) splits) ->
  merge_while cs turns cw splits cum st = Ret (m, cmb) ->
  Str.join "" m = Str.join "" splits.
Proof.
  induction turns as [|turns IH]; intros st m cmb Hcw Hall Hinv Hjoin Hrun;
    cbn [merge_while] in Hrun; fold n in Hrun;
    destruct (current_index st <? n) eqn:Hlt; try discriminate;
    try (apply Z.ltb_ge in Hlt; injection Hrun as <- <-; rewrite Hjoin; f_equal;
         apply firstn_all2; destruct Hinv as [Hc _]; unfold n, len in *; lia).
  apply Z.ltb_lt in Hlt.
  destruct (merge_body_spec st Hinv Hlt) as (j & _ & Hbody & Hinv' & _ & Hfwd & _).
  specialize (Hfwd (Hall _ (conj (proj1 (proj1 Hinv)) Hlt))).
  rewrite Hbody in Hrun. cbn [bind] in Hrun.
  apply IH in Hrun; [exact Hrun | exact Hcw | exact Hall | exact Hinv' |].
  cbn [merged current_index].
  destruct Hinv' as [Hc' _]. destruct Hinv as [Hc _].
  set (c' := if j =? current_index st then j + 1 else j) in *.
  rewrite join_empty_app, Hjoin.
  rewrite (firstn_slice splits (current_index st) c') by (fold n; lia).
  rewrite join_empty_app, Hcw. reflexivity.
Qed.

(** When a running sum before the last is [inf] the loop never leaves. *)
Lemma merge_while_stuck (f : Z) (turns : nat) : forall st,
  0 <= f < n -> cumn f = PInf ->
  inv (current_index st) ->
  merge_while cs turns cw splits cum st = Loops.
Proof.
  intros st Hf Hinf. revert st.
  assert (Hbound : forall c, inv c -> c <= f).
  { intros c [Hc Hbefore]. destruct (Z_le_gt_dec c f) as [H|H]; [exact H|].
    specialize (Hbefore f ltac:(lia)). rewrite Hinf in Hbefore. contradiction. }
  induction turns as [|turns IH]; intros st Hinv; cbn [merge_while]; fold n;
    pose proof (Hbound _ Hinv) as Hle;
    replace (current_index st <? n) with true by (symmetry; apply Z.ltb_lt; lia);
    [reflexivity|].
  destruct (merge_body_spec st Hinv ltac:(lia)) as (j & _ & Hbody & Hinv' & _).
  rewrite Hbody. cbn [bind]. apply IH. exact Hinv'.
Qed.

Lemma sums_int_of_counts :
  Forall Num.is_int (removelast counts) ->
  forall i, 0 <= i < n -> Num.is_int (cumn i).
Proof.
  intros Hint i Hi. rewrite cumn_fold by lia.
  apply fold_plus_int; [|exact I].
  rewrite <- firstn_removelast by (unfold n, len in Hi; lia).
  now apply Forall_firstn.
Qed.

(** One of the two cases holds. *)
Lemma sums_int_or_inf :
  (forall i, 0 <= i < n -> Num.is_int (cumn i))
  \/ (exists f, 0 <= f < n /\ cumn f = PInf).
Proof.
  assert (H : forall k : nat, Z.of_nat k <= n ->
            (forall i, 0 <= i < Z.of_nat k -> Num.is_int (cumn i))
            \/ (exists f, 0 <= f < n /\ cumn f = PInf)).
  { induction k as [|k IH]; intros Hk; [left; intros; lia|].
    destruct (IH ltac:(lia)) as [Hall|Hex]; [|now right].
    destruct (count_cases (cumn (Z.of_nat k)) (cumn_count (Z.of_nat k) ltac:(lia)))
      as [Hi|Hi].
    - left. intros i Hi'. destruct (Z.eq_dec i (Z.of_nat k)) as [->|]; [exact Hi|].
      apply Hall. lia.
    - right. exists (Z.of_nat k). split; [lia | exact Hi]. }
  specialize (H (List.length splits)). unfold n, len in *. apply H. lia.
Qed.

Lemma reachable_inv (st : merge_state) :
  reachable cs cw splits cum st -> inv (current_index st).
Proof.
  induction 1 as [|st st' _ IH Hlt Hbody]; [apply inv_zero|].
  destruct (merge_body_spec st IH Hlt) as (j & _ & Hspec & Hinv' & _).
  rewrite Hspec in Hbody. injection Hbody as <-. exact Hinv'.
Qed.

(** With counts that are not negative the running sums never go down. *)
Lemma cumn_above_later (r : num) (i k : Z) :
  Forall Num.is_nonneg counts -> Num.is_count r ->
  0 <= i <= k -> k <= n ->
  Num.ltb (cumn i) r = false -> Num.ltb (cumn k) r = false.
Proof.
  intros Hnn Hr Hik Hk Hi. pose proof (cumn_count i ltac:(lia)) as Hci.
  rewrite cumn_fold in * by lia.
  replace (Z.to_nat k) with (Z.to_nat i + (Z.to_nat k - Z.to_nat i))%nat by lia.
  rewrite firstn_plus, fold_left_app.
  apply fold_plus_keeps_above; try assumption.
  now apply Forall_firstn, Forall_skipn.
Qed.

(** The running sums are the prefix sums, (cumulative_step cw) one per piece when
    [combine_whitespace] is set. *)
Lemma cumn_sum (i : Z) :
  0 <= i <= n ->
  cumn i = Num.add (Num.sum (firstn (Z.to_nat i) counts)) (Int (if cw then i else 0)).
Proof.
  intros Hi. rewrite cumn_fold by exact Hi.
  rewrite fold_plus_sum by (try exact I; apply Forall_firstn_counts).
  pose proof (sum_count _ (Forall_firstn_counts (Z.to_nat i))) as Hs.
  replace (len (firstn (Z.to_nat i) counts)) with i.
  - destruct (Num.sum (firstn (Z.to_nat i) counts)); simpl in Hs; try contradiction;
      reflexivity.
  - unfold len. rewrite length_firstn. unfold n, len in Hi. lia.
Qed.

(** The search of a turn finds the farthest running sum strictly below
    [current + chunk_size]. *)
Lemma merge_search_farthest (c : Z) :
  Forall Num.is_nonneg counts ->
  inv c -> c < n ->
  exists j, merge_search cs splits cum c = Ret j
    /\ 0 <= j <= n
    /\ farthest (fun x => Num.ltb x (Num.add (cumn c) (Int cs))) cum 0 = Some j.
Proof.
  intros Hnn Hinv Hcn.
  destruct (merge_search_spec c Hinv Hcn)
    as (j & Hj & Hrange & Hj0 & _ & Hbelow & Hnext & _).
  exists j. split; [exact Hj|]. split; [lia|].
  rewrite (farthest_last _ cum 0 j);
    [f_equal; lia | rewrite len_cum; lia | exact Hbelow |].
  intros k Hk. rewrite len_cum in Hk.
  destruct Hnext as [->|Hnext]; [lia|].
  apply (cumn_above_later _ (j + 1) k); try assumption; try lia.
  apply add_count; [apply cumn_count; destruct Hinv; lia | exact I].
Qed.

End MergerFacts.

(** ** The merger *)

Lemma merge_splits_loop (cs : Z) (turns : nat) (splits : list string)
  (counts : list num) (cw : bool) :
  splits <> [] -> List.length splits = List.length counts ->
  all_oversized cs counts = false ->
  _merge_splits cs turns splits counts cw
  = merge_while cs turns cw splits (cumulative cw counts)
      {| current_index := 0; merged := []; combined_token_counts := [] |}.
Proof.
  intros Hne Hlen Hover. unfold _merge_splits.
  destruct splits as [|s splits]; [contradiction|].
  destruct counts as [|t counts]; [discriminate|].
  cbn [is_empty orb]. unfold len. rewrite Hlen, Z.eqb_refl. cbn [negb].
  now rewrite Hover.
Qed.

Lemma merge_inv_start (cw : bool) (splits : list string) (counts : list num) :
  0 <= 0 <= len splits
  /\ (forall i, 0 <= i < 0 -> Num.is_int (nth (Z.to_nat i) (cumulative cw counts) NaN)).
Proof. split; [pose proof (len_nonneg splits); lia | intros; lia]. Qed.

(** An [inf] count before the last piece, outside the fast path: the loop
    never ends. *)
Lemma merge_splits_stuck (cs : Z) (turns : nat) (splits : list string)
  (counts : list num) (cw : bool) (f : Z) :
  0 < cs -> List.length splits = List.length counts -> Forall Num.is_count counts ->
  all_oversized cs counts = false ->
  0 <= f < len splits -> nth (Z.to_nat f) (cumulative cw counts) NaN = PInf ->
  _merge_splits cs turns splits counts cw = Loops.
Proof.
  intros Hcs Hlen Hcounts Hover Hf Hinf.
  rewrite merge_splits_loop; [| |exact Hlen|exact Hover].
  - eapply merge_while_stuck; eauto. apply merge_inv_start.
  - intros ->. cbn in Hf. lia.
Qed.

(** Integer counts, except perhaps the last: one turn per piece is enough. *)
Lemma merge_splits_returns (cs : Z) (splits : list string) (counts : list num)
  (cw : bool) :
  0 < cs -> List.length splits = List.length counts -> Forall Num.is_count counts ->
  Forall Num.is_int (removelast counts) ->
  exists merged combined,
    _merge_splits cs (List.length splits) splits counts cw = Ret (merged, combined).
Proof.
  intros Hcs Hlen Hcounts Hint. unfold _merge_splits.
  destruct (is_empty splits || is_empty counts); [eauto|].
  destruct (negb (len splits =? len counts)) eqn:E.
  { unfold len in E. rewrite Hlen, Z.eqb_refl in E. discriminate. }
  destruct (all_oversized cs counts); [eauto|].
  destruct (merge_while_forward cs cw splits counts Hcs Hlen Hcounts
              (List.length splits)
              {| current_index := 0; merged := []; combined_token_counts := [] |})
    as (m & cmb & Hrun).
  - now apply sums_int_of_counts.
  - apply merge_inv_start.
  - cbn. unfold len. lia.
  - eauto.
Qed.

Lemma merge_splits_join (cs : Z) (turns : nat) (splits : list string)
  (counts : list num) (merged : list string) (combined : list num) :
  0 < cs -> List.length splits = List.length counts -> Forall Num.is_count counts ->
  _merge_splits cs turns splits counts false = Ret (merged, combined) ->
  Str.join "" merged = Str.join "" splits.
Proof.
  intros Hcs Hlen Hcounts Hrun.
  destruct splits as [|s splits].
  { cbn in Hrun. inversion Hrun. reflexivity. }
  destruct (all_oversized cs counts) eqn:Hover.
  { unfold _merge_splits in Hrun. destruct counts; [discriminate|].
    cbn [is_empty orb] in Hrun. unfold len in Hrun.
    rewrite Hlen, Z.eqb_refl, Hover in Hrun. cbn in Hrun. inversion Hrun. reflexivity. }
  rewrite merge_splits_loop in Hrun by (try assumption; discriminate).
  destruct (sums_int_or_inf false (s :: splits) counts Hlen Hcounts)
    as [Hall|(f & Hf & Hinf)].
  - exact (merge_while_join cs false (s :: splits) counts Hcs Hlen Hcounts turns
             {| current_index := 0; merged := []; combined_token_counts := [] |}
             merged combined eq_refl Hall (merge_inv_start _ _ _) eq_refl Hrun).
  - rewrite (merge_while_stuck cs false (s :: splits) counts Hcs Hlen Hcounts f turns)
      in Hrun;
      [discriminate | exact Hf | exact Hinf | apply merge_inv_start].
Qed.

(** C3, as stated, fails: with no splits and one token count the lengths
    differ and the merger returns the empty pair. *)
Lemma merge_mismatch_not_always_error :
  ~ (forall (cs : Z) (turns : nat) (splits : list string) (counts : list num)
            (cw : bool),
        List.length splits <> List.length counts ->
        exists e, _merge_splits cs turns splits counts cw = Raise e).
Proof.
  intros H.
  destruct (H 5 0%nat [] [Int 5] false ltac:(discriminate)) as [e He].
  discriminate He.
Qed.

(** C3, amended.  When the two lists differ in length the merger raises
    [ValueError] before any merging, unless one of the lists is empty: then it
    returns the empty pair. *)
Theorem merge_mismatch (cs : Z) (turns : nat) (splits : list string)
  (counts : list num) (cw : bool) :
  List.length splits <> List.length counts ->
  _merge_splits cs turns splits counts cw
  = if is_empty splits || is_empty counts then Ret ([], []) else Raise ValueError.
Proof.
  intros Hlen. unfold _merge_splits.
  destruct (is_empty splits || is_empty counts); [reflexivity|].
  destruct (len splits =? len counts) eqn:E; [|reflexivity].
  apply Z.eqb_eq in E. unfold len in E. lia.
Qed.

Lemma merge_mismatch_witness :
  _merge_splits 5 3 ["a"; "b"]%string [Int 1] true = Raise ValueError.
Proof. apply (merge_mismatch 5 3 ["a"; "b"]%string [Int 1] true). simpl. lia. Defined.

(** C8, at the input [splits = ["aaaaaaaaaaaa", "b"]],
    [token_counts = [inf, 1]], [chunk_size = 1].  The turn of the loop at
    index 1 sets the index back to 0, and the loop never ends: whatever the
    number of turns allowed, it is still running. *)
Theorem merge_loop_steps_back :
  merge_body 1 false ["aaaaaaaaaaaa"; "b"]%string (cumulative false [PInf; Int 1])
    {| current_index := 1; merged := ["aaaaaaaaaaaa"%string];
       combined_token_counts := [PInf] |}
  = Ret {| current_index := 0; merged := ["aaaaaaaaaaaa"; ""]%string;
           combined_token_counts := [PInf; NInf] |}
  /\ forall turns,
       _merge_splits 1 turns ["aaaaaaaaaaaa"; "b"]%string [PInf; Int 1] false = Loops.
Proof.
  split; [reflexivity|]. intros turns.
  apply (merge_splits_stuck 1 turns _ _ false 1).
  - lia.
  - reflexivity.
  - repeat constructor.
  - reflexivity.
  - cbn. lia.
  - reflexivity.
Qed.

(** C10.  For splits and token counts of equal length, merged with
    [combine_whitespace = False], the merged pieces joined in order are the
    splits joined in order.  The merger returns them within one turn per piece
    when every count but the last is an integer. *)
Theorem merge_keeps_text (cs : Z) (turns : nat) (splits : list string)
  (counts : list num) :
  0 < cs -> List.length splits = List.length counts -> Forall Num.is_count counts ->
  (forall merged combined,
      _merge_splits cs turns splits counts false = Ret (merged, combined) ->
      Str.join "" merged = Str.join "" splits)
  /\ (Forall Num.is_int (removelast counts) ->
      exists merged combined,
        _merge_splits cs (List.length splits) splits counts false = Ret (merged, combined)
        /\ Str.join "" merged = Str.join "" splits).
Proof.
  intros Hcs Hlen Hcounts. split.
  - intros merged combined Hrun. eapply merge_splits_join; eauto.
  - intros Hint.
    destruct (merge_splits_returns cs splits counts false Hcs Hlen Hcounts Hint)
      as (merged & combined & Hrun).
    exists merged, combined. split; [exact Hrun|].
    eapply merge_splits_join; eauto.
Qed.

Lemma merge_keeps_text_witness :
  exists merged combined,
    _merge_splits 6 3 ["a"; "b"; "c"]%string [Int 2; Int 3; Int 4] false
    = Ret (merged, combined)
    /\ Str.join "" merged = "abc"%string.
Proof.
  apply (merge_keeps_text 6 3 ["a"; "b"; "c"]%string [Int 2; Int 3; Int 4]).
  - lia.
  - reflexivity.
  - repeat constructor.
  - repeat constructor.
Defined.

(** C4, as stated, fails.  With token counts [2, 3] and [chunk_size = 5] the
    farthest index whose cumulative sum does not exceed [0 + 5] is 2, the
    search of the first turn gives 1, and the two pieces stay apart. *)
Lemma merge_boundary_not_inclusive :
  let cum := cumulative false [Int 2; Int 3] in
  spec_boundary 5 cum 0 = Ret (Some 2)
  /\ merge_search 5 ["a"; "b"]%string cum 0 = Ret 1
  /\ _merge_splits 5 2 ["a"; "b"]%string [Int 2; Int 3] false
     = Ret (["a"; "b"]%string, [Int 2; Int 3]).
Proof. repeat split. Qed.

(** C4, amended.  For splits and non-negative token counts of equal length, the
    cumulative list holds at index [i] the sum of the first [i] counts, plus
    [i] (one per piece) when [combine_whitespace] is set.  At each turn of the
    loop the search gives the farthest index whose cumulative sum is strictly
    below [current + chunk_size]; the turn moves to that index, or to
    [current + 1] when that index is the current one, appends the join of the
    pieces in between and records the difference of the two cumulative sums. *)
Theorem merge_turn_boundary (cs : Z) (cw : bool) (splits : list string)
  (counts : list num) (st : merge_state) :
  0 < cs -> List.length splits = List.length counts -> Forall Num.is_nonneg counts ->
  let cum := cumulative cw counts in
  reachable cs cw splits cum st -> current_index st < len splits ->
  (forall i, 0 <= i <= len counts ->
     nth (Z.to_nat i) cum NaN
     = Num.add (Num.sum (firstn (Z.to_nat i) counts)) (Int (if cw then i else 0)))
  /\ exists cur j next,
       getitem cum (current_index st) = Ret cur
       /\ merge_search cs splits cum (current_index st) = Ret j
       /\ farthest (fun x => Num.ltb x (Num.add cur (Int cs))) cum 0 = Some j
       /\ let index := if j =? current_index st then j + 1 else j in
          getitem cum index = Ret next
          /\ merge_body cs cw splits cum st
             = Ret {| current_index := index;
                      merged := merged st
                        ++ [Str.join (if cw then " " else "")
                                     (slice splits (current_index st) index)];
                      combined_token_counts :=
                        combined_token_counts st ++ [Num.sub next cur] |}.
Proof.
  intros Hcs Hlen Hnn cum Hreach Hlt.
  assert (Hcounts : Forall Num.is_count counts).
  { revert Hnn. apply Forall_impl. exact nonneg_count. }
  split.
  { intros i Hi. apply (cumn_sum cw splits counts Hlen Hcounts).
    unfold len in *. lia. }
  pose proof (reachable_inv cs cw splits counts Hcs Hlen Hcounts st Hreach) as Hinv.
  destruct (merge_search_farthest cs cw splits counts Hcs Hlen Hcounts
              (current_index st) Hnn Hinv Hlt) as (j & Hj & Hjn & Hfar).
  destruct (merge_body_spec cs cw splits counts Hcs Hlen Hcounts st Hinv Hlt)
    as (j' & Hj' & Hbody & Hinv' & _).
  rewrite Hj in Hj'. injection Hj' as <-.
  exists (nth (Z.to_nat (current_index st)) cum NaN), j.
  eexists. split.
  { apply (getitem_cum cw splits counts Hlen). destruct Hinv. lia. }
  split; [exact Hj|]. split; [exact Hfar|]. intros index. split.
  - apply (getitem_cum cw splits counts Hlen). destruct Hinv' as [H _]. exact H.
  - exact Hbody.
Qed.

Lemma merge_turn_boundary_witness :
  exists j,
    farthest (fun x => Num.ltb x (Int 5)) (cumulative false [Int 2; Int 3]) 0 = Some j
    /\ merge_search 5 ["a"; "b"]%string (cumulative false [Int 2; Int 3]) 0 = Ret j.
Proof.
  destruct (merge_turn_boundary 5 false ["a"; "b"]%string [Int 2; Int 3]
              {| current_index := 0; merged := []; combined_token_counts := [] |})
    as (_ & cur & j & next & Hcur & Hj & Hfar & _).
  - lia.
  - reflexivity.
  - repeat constructor; simpl; lia.
  - constructor.
  - reflexivity.
  - exists j. injection Hcur as <-. split; [exact Hfar | exact Hj].
Defined.

(** ** The constructor *)

Lemma init_checks (tok : Tokenizer) (count : string -> Z)
  (rs rrs : list RecursiveLevel) (size min_chars : Z) (rt : string)
  (self : RecursiveChunker) :
  __init__ tok count rs rrs size min_chars rt = Ret self ->
  0 < chunk_size self /\ 0 < min_characters_per_chunk self
  /\ (return_type self = "chunks"%string \/ return_type self = "texts"%string).
Proof.
  unfold __init__. intros H.
  destruct (size <=? 0) eqn:Hsize; [discriminate|].
  destruct (min_chars <=? 0) eqn:Hmin; [discriminate|].
  destruct (rt =? "chunks")%string eqn:Hc; destruct (rt =? "texts")%string eqn:Ht;
    cbn in H; try discriminate; injection H as <-; cbn;
    apply Z.leb_gt in Hsize; apply Z.leb_gt in Hmin;
    (split; [exact Hsize|]; split; [exact Hmin|]);
    try (left; now apply String.eqb_eq); right; now apply String.eqb_eq.
Qed.

(** ** The estimator *)

(** C7.  The estimator returns the overflow value [inf] with no call of the
    tokenizer if and only if [max(1, len(text) // 6) > chunk_size]; otherwise
    it returns [count_tokens(text)], from one call of the tokenizer on
    [text]. *)
Theorem estimate_overflow_iff (self : RecursiveChunker) (text : string) :
  let estimate := Z.max 1 (Str.strlen text / 6) in
  (_estimate_token_count_calls self text = (PInf, []) <-> estimate > chunk_size self)
  /\ (estimate > chunk_size self
      \/ _estimate_token_count_calls self text
         = (Int (count_tokens (tokenizer self) text), [text]))
  /\ _estimate_token_count self text = fst (_estimate_token_count_calls self text).
Proof.
  intros estimate. unfold _estimate_token_count, _estimate_token_count_calls.
  change _CHARS_PER_TOKEN with 6. fold estimate.
  destruct (estimate >? chunk_size self) eqn:E.
  - assert (estimate > chunk_size self) by (apply Z.gtb_lt in E; lia).
    repeat split; auto.
  - assert (~ estimate > chunk_size self).
    { intros H. apply Z.gt_lt, Z.gtb_lt in H. congruence. }
    repeat split; auto; try discriminate. contradiction.
Qed.

Lemma estimate_count (self : RecursiveChunker) (text : string) :
  Num.is_count (_estimate_token_count self text).
Proof.
  unfold _estimate_token_count, _estimate_token_count_calls.
  destruct (_ >? _); exact I.
Qed.

(** ** The materializer *)

Lemma prefix_take (sub s : string) :
  String.prefix sub s = true <-> Str.take (String.length sub) s = sub.
Proof.
  revert s. induction sub as [|c sub IH]; intros s.
  - destruct s; simpl; split; reflexivity.
  - destruct s as [|d s]; simpl; [split; discriminate|].
    destruct (Ascii.ascii_dec c d) as [->|Hne].
    + rewrite IH. split; [intros ->; reflexivity | intros H; now injection H].
    + split; [discriminate | intros H; injection H as H _; congruence].
Qed.

Lemma drop_drop (a b : nat) (s : string) : Str.drop a (Str.drop b s) = Str.drop (b + a) s.
Proof.
  revert s. induction b as [|b IH]; intros s; [reflexivity|].
  destruct s as [|c s]; simpl; [destruct a; reflexivity | apply IH].
Qed.

Lemma slice_take_drop (s : string) (i k : nat) :
  Str.slice s i (i + k) = Str.take k (Str.drop i s).
Proof. unfold Str.slice. f_equal. lia. Qed.

Lemma index_spec (sub s : string) :
  (exists i, Str.index sub s = Ret i
             /\ Str.take (String.length sub) (Str.drop i s) = sub)
  \/ (Str.index sub s = Raise ValueError
      /\ forall j, Str.take (String.length sub) (Str.drop j s) <> sub).
Proof.
  induction s as [|c s IH]; cbn [Str.index].
  - destruct (String.prefix sub "") eqn:E.
    + left. exists O. split; [reflexivity | now apply prefix_take].
    + right. split; [reflexivity|]. intros j H.
      replace (Str.drop j "") with ""%string in H by (destruct j; reflexivity).
      apply prefix_take in H. pose proof (eq_trans (eq_sym H) E). discriminate.
  - destruct (String.prefix sub (String c s)) eqn:E.
    + left. exists O. split; [reflexivity | now apply prefix_take].
    + destruct IH as [(i & Hi & Ht)|[Hi Hn]]; rewrite Hi; cbn [bind].
      * left. exists (S i). split; [reflexivity | exact Ht].
      * right. split; [reflexivity|]. intros [|j] H.
        -- apply prefix_take in H. pose proof (eq_trans (eq_sym H) E). discriminate.
        -- exact (Hn j H).
Qed.

(** C6.  Materialization is a total function: it returns a chunk for every
    text, full text and search offset.  If the text occurs in the full text at
    or after the offset, the chunk satisfies
    [full_text[start_index:end_index] == text], so
    [end_index - start_index == len(text)], and nothing is printed; otherwise
    the chunk has [start_index = end_index = 0] and the diagnostic is
    printed. *)
Theorem convert_to_chunk_offsets (self : RecursiveChunker) (txt : string)
  (count : num) (lvl : nat) (full_text : option string) (from : nat) :
  let whole := match full_text with None => txt | Some t => t end in
  let c := fst (_convert_to_chunk self txt count lvl full_text from) in
  let printed := snd (_convert_to_chunk self txt count lvl full_text from) in
  text c = txt /\ token_count c = count /\ level c = lvl
  /\ ((occurs_from txt whole from
       /\ Str.slice whole (start_index c) (end_index c) = txt
       /\ (end_index c - start_index c)%nat = String.length txt
       /\ (from <= start_index c)%nat
       /\ printed = [])
      \/ (~ occurs_from txt whole from
          /\ start_index c = O /\ end_index c = O
          /\ printed = [diagnostic txt])).
Proof.
  intros whole c printed. subst c printed. unfold _convert_to_chunk. fold whole.
  destruct (index_spec txt (Str.drop from whole)) as [(i & Hi & Ht)|[Hi Hn]];
    rewrite Hi; cbn [fst snd text token_count level start_index end_index];
    repeat (split; [reflexivity|]).
  - left. rewrite drop_drop in Ht.
    assert (Hs : Str.slice whole (from + i) (from + i + String.length txt) = txt).
    { now rewrite slice_take_drop. }
    split; [exists (from + i)%nat; split; [lia | exact Hs]|].
    split; [exact Hs|]. split; [lia|]. split; [lia | reflexivity].
  - right. split; [|auto]. intros (i & Hle & Hs).
    rewrite slice_take_drop in Hs.
    apply (Hn (i - from)%nat). rewrite drop_drop.
    now replace (from + (i - from))%nat with i by lia.
Qed.

(** ** The splitter *)

Lemma nonempty_iff (s : string) : Str.nonempty s = true <-> s <> ""%string.
Proof. destruct s; simpl; split; congruence. Qed.

Lemma strlen_append (s t : string) : Str.strlen (s ++ t) = Str.strlen s + Str.strlen t.
Proof. unfold Str.strlen. rewrite length_append. lia. Qed.

Lemma strlen_pos (s : string) : 0 < Str.strlen s -> s <> ""%string.
Proof. intros H ->. cbn in H. lia. Qed.

Lemma Forall_removelast {A : Type} (P : A -> Prop) (l : list A) :
  Forall P l -> Forall P (removelast l).
Proof.
  induction 1 as [|x l Hx Hl IH]; [constructor|].
  destruct l; [constructor | simpl; constructor; assumption].
Qed.

(** The loop "Merge short splits": while it runs, [current] is shorter than
    the minimum and every piece in [merged] reaches it. *)
Lemma merge_short_spec (self : RecursiveChunker) (splits : list string) :
  0 < min_characters_per_chunk self ->
  forall current merged,
  Forall (fun s => s <> ""%string) splits ->
  Str.strlen current < min_characters_per_chunk self ->
  Forall (fun p => min_characters_per_chunk self <= Str.strlen p) merged ->
  let pieces := merge_short self splits current merged in
  Forall (fun p => p <> ""%string) pieces
  /\ Forall (fun p => min_characters_per_chunk self <= Str.strlen p) (removelast pieces).
Proof.
  intros Hmin. set (m := min_characters_per_chunk self) in *.
  assert (Hlong : forall l, Forall (fun p => m <= Str.strlen p) l ->
                            Forall (fun p => p <> ""%string) l).
  { intros l. apply Forall_impl. intros p Hp. apply strlen_pos. lia. }
  induction splits as [|split rest IH]; intros current merged Hsplits Hcur Hmerged.
  - cbn [merge_short]. destruct (Str.nonempty current) eqn:E.
    + rewrite removelast_last. split; [|exact Hmerged].
      apply Forall_app. split; [now apply Hlong|].
      constructor; [now apply nonempty_iff | constructor].
    + split; [now apply Hlong | now apply Forall_removelast].
  - inversion Hsplits as [|? ? Hsplit Hrest]; subst.
    cbn [merge_short]. fold m.
    destruct (Str.strlen split <? m) eqn:Eshort.
    + (* a short split joins [current] *)
      destruct (Str.strlen (current ++ split) >=? m) eqn:Efull.
      * apply IH; [exact Hrest | cbn; lia |].
        apply Forall_app. split; [exact Hmerged|].
        constructor; [|constructor]. apply Z.geb_le in Efull. exact Efull.
      * apply IH; [exact Hrest | | exact Hmerged].
        destruct (Z.geb_spec (Str.strlen (current ++ split)) m); [discriminate | lia].
    + apply Z.ltb_ge in Eshort. destruct (Str.nonempty current) eqn:Ecur.
      * (* a long split closes a pending [current] *)
        replace (Str.strlen "" >=? m) with false
          by (symmetry; cbn; destruct (Z.geb_spec 0 m); [lia | reflexivity]).
        apply IH; [exact Hrest | cbn; lia |].
        apply Forall_app. split; [exact Hmerged|].
        constructor; [|constructor]. rewrite strlen_append.
        unfold Str.strlen at 1. lia.
      * (* a long split on its own *)
        replace (Str.strlen current >=? m) with false
          by (symmetry; destruct (Z.geb_spec (Str.strlen current) m);
              [lia | reflexivity]).
        apply IH; [exact Hrest | exact Hcur |].
        apply Forall_app. split; [exact Hmerged|].
        constructor; [exact Eshort | constructor].
Qed.

(** C9.  In delimiter mode, with a positive [min_characters_per_chunk], every
    piece the splitter returns is a non-empty string, and every returned piece
    except possibly the last has at least [min_characters_per_chunk]
    characters.  With a list of delimiters and a non-empty separator the
    splitter does return. *)
Theorem split_delimiter_pieces (self : RecursiveChunker) (txt : string)
  (rule : RecursiveLevel) (sep : string) :
  0 < min_characters_per_chunk self ->
  whitespace_delimiter rule = false -> custom_delimiters rule = true ->
  (forall pieces, _split self txt rule sep = Ret pieces ->
     Forall (fun p => p <> ""%string) pieces
     /\ Forall (fun p => min_characters_per_chunk self <= Str.strlen p)
               (removelast pieces))
  /\ (forall ds, delimiters rule = Some ds -> sep <> ""%string ->
      exists pieces, _split self txt rule sep = Ret pieces).
Proof.
  intros Hmin Hws Hcustom. unfold _split. rewrite Hws, Hcustom. split.
  - intros pieces Hrun. destruct (delimiters rule) as [ds|]; [|discriminate].
    destruct (Str.split _ sep) as [raw| | |]; try discriminate.
    cbn [bind] in Hrun. injection Hrun as <-.
    apply merge_short_spec; [exact Hmin | | cbn; lia | constructor].
    apply Forall_forall. intros p Hp. apply filter_In in Hp.
    now apply nonempty_iff.
  - intros ds -> Hsep. unfold Str.split.
    destruct sep; [contradiction|]. cbn [bind]. eauto.
Qed.

Lemma split_delimiter_pieces_witness :
  Forall (fun p => p <> ""%string) ["a.bb."; "cccc."; "d.eeeee."; "f"]%string
  /\ Forall (fun p => 3 <= Str.strlen p)
            (removelast ["a.bb."; "cccc."; "d.eeeee."; "f"]%string).
Proof.
  apply (split_delimiter_pieces (char_chunker [] 4 3) "a.bb.cccc.d.eeeee.f"
           (delimiter_level ["."%string] Prev) default_sep).
  - reflexivity.
  - reflexivity.
  - reflexivity.
  - reflexivity.
Defined.

(** ** The driver *)

Lemma merge_splits_counts (cs : Z) (turns : nat) (splits : list string)
  (counts : list num) (cw : bool) (m : list string) (cmb : list num) :
  0 < cs -> Forall Num.is_count counts ->
  _merge_splits cs turns splits counts cw = Ret (m, cmb) ->
  Forall (fun x => x <> NaN) cmb.
Proof.
  intros Hcs Hcounts Hrun. unfold _merge_splits in Hrun.
  destruct (is_empty splits || is_empty counts); [inversion Hrun; constructor|].
  destruct (len splits =? len counts) eqn:Hlen; [|discriminate].
  cbn [negb] in Hrun. apply Z.eqb_eq in Hlen. unfold len in Hlen.
  destruct (all_oversized cs counts).
  - inversion Hrun; subst. revert Hcounts. apply Forall_impl.
    intros x Hx ->. exact Hx.
  - exact (merge_while_counts cs cw splits counts Hcs ltac:(lia) Hcounts turns
             {| current_index := 0; merged := []; combined_token_counts := [] |}
             m cmb (merge_inv_start _ _ _) (Forall_nil _) Hrun).
Qed.

Lemma Forall_combine_snd {A B : Type} (Q : B -> Prop) (l1 : list A) (l2 : list B) :
  Forall Q l2 -> Forall (fun it => Q (snd it)) (combine l1 l2).
Proof.
  intros H. apply Forall_forall. intros [x y] Hin.
  apply in_combine_r in Hin. rewrite Forall_forall in H. now apply H.
Qed.

Section DriverFacts.

Variable self : RecursiveChunker.
Hypothesis Hcs : 0 < chunk_size self.

(** A chunk made before the rules run out fits the chunk size. *)
Let fits (o : output) : Prop :=
  match o with
  | Chunk c =>
      (List.length (rules self) <= level c)%nat
      \/ Num.leb (token_count c) (Int (chunk_size self)) = true
  | Text _ => True
  end.

Lemma convert_fields (txt : string) (count : num) (lvl : nat)
  (full_text : option string) (from : nat) :
  token_count (fst (_convert_to_chunk self txt count lvl full_text from)) = count
  /\ level (fst (_convert_to_chunk self txt count lvl full_text from)) = lvl.
Proof.
  unfold _convert_to_chunk. destruct (Str.index _ _); split; reflexivity.
Qed.

Lemma chunk_loop_fits (recur : string -> outcome (list output * list string))
  (rule : RecursiveLevel) (lvl : nat) (pieces : list string) (full : string)
  (items : list (string * num)) :
  (forall split outs printed, recur split = Ret (outs, printed) -> Forall fits outs) ->
  Forall (fun it => snd it <> NaN) items ->
  forall outs printed,
  chunk_loop self recur rule lvl pieces full items = Ret (outs, printed) ->
  Forall fits outs.
Proof.
  intros Hrecur. induction items as [|[split count] items IH];
    intros Hitems outs printed Hrun.
  - inversion Hrun. constructor.
  - inversion Hitems as [|? ? Hcount Hitems']; subst. cbn [snd] in Hcount.
    cbn [chunk_loop] in Hrun.
    match type of Hrun with bind ?c _ = _ => destruct c as [[o1 p1]| | |] eqn:Hhere end;
      try discriminate.
    cbn [bind] in Hrun.
    destruct (chunk_loop self recur rule lvl pieces full items)
      as [[o2 p2]| | |] eqn:Hrest;
      try discriminate.
    cbn [bind fst snd] in Hrun. inversion Hrun; subst.
    apply Forall_app. split; [|eapply IH; eauto].
    destruct (Num.gtb count (Int (chunk_size self))) eqn:Hgt.
    + eapply Hrecur; eauto.
    + destruct (return_type self =? "chunks")%string.
      * destruct (_convert_to_chunk self split count lvl _ 0) as [c p] eqn:Hconv.
        inversion Hhere; subst. constructor; [|constructor].
        right. pose proof (convert_fields split count lvl
          (Some (if no_delim rule then Str.join "" pieces else full)) 0) as [Hc _].
        rewrite Hconv in Hc. cbn [fst] in Hc. rewrite Hc.
        now apply not_gtb_leb.
      * destruct (return_type self =? "texts")%string; inversion Hhere; subst;
          repeat constructor.
Qed.

Lemma chunk_helper_fits (turns depth : nat) : forall txt lvl full_text outs printed,
  _chunk_helper self turns depth txt lvl full_text = Ret (outs, printed) ->
  Forall fits outs.
Proof.
  induction depth as [|depth IH]; intros txt lvl full_text outs printed Hrun;
    cbn [_chunk_helper] in Hrun;
    (destruct (negb (Str.nonempty txt)); [inversion Hrun; constructor|]);
    (destruct (List.length (rules self) <=? lvl)%nat eqn:Hlvl;
     [ apply Nat.leb_le in Hlvl;
       destruct (return_type self =? "texts")%string;
       [inversion Hrun; repeat constructor|];
       destruct (return_type self =? "chunks")%string; [|discriminate];
       destruct (_convert_to_chunk self txt _ lvl full_text 0) as [c p] eqn:Hconv;
       inversion Hrun; subst; constructor; [|constructor]; left;
       pose proof (convert_fields txt (Int (_get_token_count self txt)) lvl full_text 0)
         as [_ Hl];
       rewrite Hconv in Hl; cbn [fst] in Hl; rewrite Hl; exact Hlvl
     | ]); [discriminate|].
  destruct (nth_error (recursive_rules self) lvl) as [rule|]; [|discriminate].
  cbn [bind] in Hrun.
  destruct (_split self txt rule default_sep) as [splits| | |]; try discriminate.
  cbn [bind] in Hrun.
  match type of Hrun with bind ?c _ = _ => destruct c as [[m cmb]| | |] eqn:Hmc end;
    try discriminate.
  cbn [bind fst snd] in Hrun.
  assert (Hcounts : Forall Num.is_count (map (_estimate_token_count self) splits)).
  { apply Forall_forall. intros x Hx. apply in_map_iff in Hx.
    destruct Hx as (t & <- & _). apply estimate_count. }
  assert (Hcmb : Forall (fun x => x <> NaN) cmb).
  { destruct (delimiters rule), (whitespace rule);
      try (eapply merge_splits_counts; eauto; fail);
      inversion Hmc; subst; revert Hcounts; apply Forall_impl; intros x Hx ->; exact Hx. }
  refine (chunk_loop_fits _ _ _ _ _ _ _
            (Forall_combine_snd (fun x => x <> NaN) m cmb Hcmb) _ _ Hrun).
  intros split outs' printed' Hrec. eapply IH. exact Hrec.
Qed.

End DriverFacts.

(** C1.  Every chunk that [chunk(text)] produces at a level below the number of
    rules has [token_count <= chunk_size]; a chunk can exceed the chunk size
    only when it comes from the fallback at a level past the last rule. *)
Theorem chunk_size_bound (self : RecursiveChunker) (turns : nat) (txt : string)
  (outs : list output) (printed : list string) :
  0 < chunk_size self ->
  chunk self turns txt = Ret (outs, printed) ->
  forall c, In (Chunk c) outs ->
    (level c < List.length (rules self))%nat ->
    Num.leb (token_count c) (Int (chunk_size self)) = true.
Proof.
  intros Hcs Hrun c Hin Hlevel.
  pose proof (chunk_helper_fits self Hcs _ _ _ _ _ _ _ Hrun) as Hfits.
  rewrite Forall_forall in Hfits. specialize (Hfits _ Hin).
  cbn in Hfits. destruct Hfits as [H|H]; [lia | exact H].
Qed.

Lemma chunk_size_bound_witness :
  Num.leb (token_count {| text := "ab"; start_index := 0; end_index := 2;
                          token_count := Int 3; level := 0 |})
          (Int (chunk_size word_chunker)) = true.
Proof.
  apply (chunk_size_bound word_chunker 10 "ab ab"
           [Chunk {| text := "ab"; start_index := 0; end_index := 2;
                     token_count := Int 3; level := 0 |};
            Chunk {| text := "ab"; start_index := 0; end_index := 2;
                     token_count := Int 3; level := 0 |}] []).
  - reflexivity.
  - vm_compute. reflexivity.
  - left. reflexivity.
  - simpl. lia.
Defined.

(** Past the last rule the fallback wraps the text whatever its size. *)
Example fallback_chunk_exceeds :
  chunk (char_chunker [whitespace_level] 2 1) 10 "abc"
  = Ret ([Chunk {| text := "abc"; start_index := 0; end_index := 3;
                   token_count := Int 3; level := 1 |}], []).
Proof. vm_compute. reflexivity. Qed.

(** C5, at the text ["ab ab"] with a whitespace rule and [chunk_size = 3].
    Both chunks are looked up in the full text from offset 0, and the second
    ["ab"] gets the offsets of the first: [(0, 2)] where it stands at
    [(3, 5)]. *)
Theorem duplicate_chunks_share_offsets :
  chunk word_chunker 10 "ab ab"
  = Ret ([Chunk {| text := "ab"; start_index := 0; end_index := 2;
                   token_count := Int 3; level := 0 |};
          Chunk {| text := "ab"; start_index := 0; end_index := 2;
                   token_count := Int 3; level := 0 |}], [])
  /\ Str.slice "ab ab" 3 5 = "ab"%string.
Proof. split; vm_compute; reflexivity. Qed.

(** The nesting of [_chunk_helper] calls stays within the number of rules that
    are left. *)
Lemma merge_while_not_too_deep (cs : Z) (turns : nat) (cw : bool)
  (splits : list string) (cum : list num) : forall st,
  merge_while cs turns cw splits cum st <> TooDeep.
Proof.
  induction turns as [|turns IH]; intros st; cbn [merge_while];
    destruct (current_index st <? len splits); try discriminate.
  destruct (merge_body cs cw splits cum st) as [st'| | |] eqn:Hbody; cbn [bind];
    try discriminate; [apply IH|].
  exfalso. unfold merge_body, merge_search, bisect_left, getitem in Hbody.
  repeat match type of Hbody with
         | context [if ?b then _ else _] => destruct b
         | context [match ?o with Some _ => _ | None => _ end] => destruct o
         | _ => progress cbn [bind] in Hbody
         end; discriminate.
Qed.

Lemma merge_splits_not_too_deep (cs : Z) (turns : nat) (splits : list string)
  (counts : list num) (cw : bool) :
  _merge_splits cs turns splits counts cw <> TooDeep.
Proof.
  unfold _merge_splits.
  repeat match goal with |- context [if ?b then _ else _] => destruct b end;
    try discriminate.
  apply merge_while_not_too_deep.
Qed.

Lemma split_not_too_deep (self : RecursiveChunker) (txt : string)
  (rule : RecursiveLevel) (sep : string) :
  _split self txt rule sep <> TooDeep.
Proof.
  unfold _split, Str.split, token_windows.
  repeat match goal with
         | |- context [if ?b then _ else _] => destruct b
         | |- context [match ?o with Some _ => _ | None => _ end] => destruct o
         | |- context [match ?s with EmptyString => _ | String _ _ => _ end] => destruct s
         | _ => progress cbn [bind]
         end; discriminate.
Qed.

Lemma chunk_loop_not_too_deep (self : RecursiveChunker)
  (recur : string -> outcome (list output * list string))
  (rule : RecursiveLevel) (lvl : nat) (pieces : list string) (full : string)
  (items : list (string * num)) :
  (forall split, recur split <> TooDeep) ->
  chunk_loop self recur rule lvl pieces full items <> TooDeep.
Proof.
  intros Hrecur. induction items as [|[split count] items IH]; [discriminate|].
  cbn [chunk_loop].
  match goal with |- bind ?c _ <> _ => assert (Hhere : c <> TooDeep) end.
  { destruct (Num.gtb count _); [apply Hrecur|].
    destruct (return_type self =? "chunks")%string.
    - destruct (_convert_to_chunk _ _ _ _ _ _). discriminate.
    - destruct (return_type self =? "texts")%string; discriminate. }
  match goal with |- bind ?c _ <> _ => destruct c end; cbn [bind];
    try discriminate; try contradiction.
  destruct (chunk_loop self recur rule lvl pieces full items); cbn [bind];
    try discriminate; contradiction.
Qed.

Lemma chunk_helper_depth (self : RecursiveChunker) (turns depth : nat) :
  forall txt lvl full_text,
  (List.length (rules self) <= lvl + depth)%nat ->
  _chunk_helper self turns depth txt lvl full_text <> TooDeep.
Proof.
  induction depth as [|depth IH]; intros txt lvl full_text Hdepth;
    cbn [_chunk_helper];
    (destruct (negb (Str.nonempty txt)); [discriminate|]);
    (destruct (List.length (rules self) <=? lvl)%nat eqn:Hlvl;
     [ destruct (return_type self =? "texts")%string; [discriminate|];
       destruct (return_type self =? "chunks")%string; [|discriminate];
       destruct (_convert_to_chunk _ _ _ _ _ _); discriminate
     | apply Nat.leb_gt in Hlvl ]); [lia|].
  destruct (nth_error (recursive_rules self) lvl) as [rule|]; [|discriminate].
  cbn [bind].
  pose proof (split_not_too_deep self txt rule default_sep) as Hsplit.
  destruct (_split self txt rule default_sep) as [splits| | |];
    try discriminate; try contradiction.
  cbn [bind].
  match goal with |- bind ?c _ <> _ => assert (Hmc : c <> TooDeep) end.
  { destruct (delimiters rule), (whitespace rule);
      try apply merge_splits_not_too_deep; discriminate. }
  match goal with |- bind ?c _ <> _ => destruct c end; cbn [bind];
    try discriminate; try contradiction.
  apply chunk_loop_not_too_deep. intros split. apply IH. lia.
Qed.

Lemma chunk_depth (self : RecursiveChunker) (turns : nat) (txt : string) :
  chunk self turns txt <> TooDeep.
Proof. apply chunk_helper_depth. lia. Qed.

(** C2, at the text ["aaaaaaaaaaaa.b"] with a sentence rule followed by a
    token-window rule, [chunk_size = 1] and one token per character.  The
    first piece is estimated at [inf] and the second at 1, the merge loop at
    level 0 never ends, and [chunk] is still running whatever the number of
    turns allowed. *)
Theorem chunk_never_returns :
  no_delim (last (rules sentence_chunker) whitespace_level) = true
  /\ _split sentence_chunker "aaaaaaaaaaaa.b"
       (delimiter_level ["."%string] Prev) default_sep
     = Ret ["aaaaaaaaaaaa."; "b"]%string
  /\ map (_estimate_token_count sentence_chunker) ["aaaaaaaaaaaa."; "b"]%string
     = [PInf; Int 1]
  /\ forall turns, chunk sentence_chunker turns "aaaaaaaaaaaa.b" = Loops.
Proof.
  split; [reflexivity|]. split; [reflexivity|]. split; [reflexivity|].
  intros turns.
  assert (Hmerge : _merge_splits 1 turns ["aaaaaaaaaaaa."; "b"]%string
                     [PInf; Int 1] false = Loops).
  { apply (merge_splits_stuck 1 turns _ _ false 1);
      [lia | reflexivity | repeat constructor | reflexivity | cbn; lia | reflexivity]. }
  unfold chunk, sentence_chunker.
  cbn -[_merge_splits]. rewrite Hmerge. reflexivity.
Qed.

(** * Further properties of the code *)

(** ** [str.split] and [str.join] *)

Lemma join_cons (sep x : string) (l : list string) :
  l <> [] -> Str.join sep (x :: l) = (x ++ sep ++ Str.join sep l)%string.
Proof. destruct l; [contradiction | reflexivity]. Qed.

Lemma split_scan_nonempty (sep : string) (s : string) : forall skip piece,
  Str.split_scan sep skip piece s <> [].
Proof.
  induction s as [|c s IH]; intros skip piece; cbn [Str.split_scan]; [discriminate|].
  destruct skip; [|apply IH].
  destruct (String.prefix sep (String c s)); [discriminate | apply IH].
Qed.

Lemma prefix_append (p s : string) :
  String.prefix p s = true -> exists rest, s = (p ++ rest)%string.
Proof.
  revert s. induction p as [|c p IH]; intros s H; [exists s; reflexivity|].
  destruct s as [|d s]; [discriminate|]. simpl in H.
  destruct (Ascii.ascii_dec c d) as [->|]; [|discriminate].
  destruct (IH s H) as [rest ->]. exists rest. reflexivity.
Qed.

(** The characters still to be passed over are passed over. *)
Lemma split_scan_skip (sep : string) (u : string) : forall piece rest,
  Str.split_scan sep (String.length u) piece (u ++ rest)
  = Str.split_scan sep 0 piece rest.
Proof.
  induction u as [|c u IH]; intros piece rest; [reflexivity|].
  cbn [String.length append Str.split_scan]. apply IH.
Qed.

Lemma join_split_scan (sep : string) (n : nat) : forall s piece,
  sep <> ""%string -> (String.length s <= n)%nat ->
  Str.join sep (Str.split_scan sep 0 piece s) = (piece ++ s)%string.
Proof.
  induction n as [|n IH]; intros s piece Hsep Hlen.
  - destruct s; [cbn; now rewrite append_nil_r | cbn in Hlen; lia].
  - destruct s as [|c s]; [cbn; now rewrite append_nil_r|].
    cbn [Str.split_scan]. destruct (String.prefix sep (String c s)) eqn:Hp.
    + destruct sep as [|c0 sep']; [contradiction|].
      pose proof Hp as Hp'. simpl in Hp'.
      destruct (Ascii.ascii_dec c0 c) as [->|]; [|discriminate].
      destruct (prefix_append _ _ Hp') as [rest ->].
      replace (String.length (String c sep') - 1)%nat with (String.length sep')
        by (cbn [String.length]; lia).
      rewrite split_scan_skip.
      rewrite join_cons by apply split_scan_nonempty.
      rewrite IH; [reflexivity | discriminate |].
      cbn [String.length] in Hlen. rewrite length_append in Hlen. lia.
    + rewrite IH; [| exact Hsep | cbn [String.length] in Hlen; lia].
      rewrite append_assoc. reflexivity.
Qed.

(** [sep.join(s.split(sep)) == s] *)
Lemma join_split (s sep : string) (pieces : list string) :
  Str.split s sep = Ret pieces -> Str.join sep pieces = s.
Proof.
  unfold Str.split. destruct sep as [|c sep]; [discriminate|].
  intros H. injection H as <-.
  apply (join_split_scan _ (String.length s)); [discriminate | lia].
Qed.

(** ** The constructor and the estimator *)


(** X2.  With [chunk_size >= 1] the estimator gives [inf] exactly for the
    texts of at least [6 * (chunk_size + 1)] characters; every shorter text is
    counted by the tokenizer. *)
Theorem estimate_length_threshold (self : RecursiveChunker) (txt : string) :
  0 < chunk_size self ->
  (6 * (chunk_size self + 1) <= Str.strlen txt
   /\ _estimate_token_count self txt = PInf)
  \/ (Str.strlen txt < 6 * (chunk_size self + 1)
      /\ _estimate_token_count self txt = Int (count_tokens (tokenizer self) txt)).
Proof.
  intros Hcs. unfold _estimate_token_count, _estimate_token_count_calls.
  change _CHARS_PER_TOKEN with 6.
  destruct (Z_le_gt_dec (6 * (chunk_size self + 1)) (Str.strlen txt)) as [Hlong|Hshort].
  - left. split; [exact Hlong|].
    assert (chunk_size self + 1 <= Str.strlen txt / 6)
      by (apply Z.div_le_lower_bound; lia).
    replace (Z.max 1 (Str.strlen txt / 6) >? chunk_size self) with true;
      [reflexivity | symmetry; apply Z.gtb_lt; lia].
  - right. split; [lia|].
    assert (Str.strlen txt / 6 < chunk_size self + 1)
      by (apply Z.div_lt_upper_bound; lia).
    destruct (Z.max 1 (Str.strlen txt / 6) >? chunk_size self) eqn:E; [|reflexivity].
    apply Z.gtb_lt in E. lia.
Qed.

Lemma estimate_length_threshold_witness :
  _estimate_token_count word_chunker "abcdefghijklmnopqrstuvwx" = PInf.
Proof.
  destruct (estimate_length_threshold word_chunker "abcdefghijklmnopqrstuvwx")
    as [[_ H]|[H _]].
  - reflexivity.
  - exact H.
  - exfalso. revert H. vm_compute. discriminate.
Defined.

(** ** The splitter, mode by mode *)

Lemma split_whitespace_pieces (self : RecursiveChunker) (txt : string)
  (rule : RecursiveLevel) (sep : string) :
  whitespace_delimiter rule = true ->
  exists pieces, _split self txt rule sep = Ret pieces
    /\ pieces <> [] /\ Str.join " " pieces = txt.
Proof.
  intros Hws. unfold _split. rewrite Hws.
  exists (Str.split_scan " " 0 "" txt). split; [reflexivity|].
  split; [apply split_scan_nonempty | now apply (join_split txt " ")].
Qed.

(** X3.  In whitespace mode the splitter returns at least one piece, and
    joining the pieces with single spaces gives back the text. *)
Theorem split_whitespace_roundtrip (self : RecursiveChunker) (txt : string)
  (rule : RecursiveLevel) (sep : string) :
  whitespace_delimiter rule = true ->
  exists pieces, _split self txt rule sep = Ret pieces
    /\ pieces <> [] /\ Str.join " " pieces = txt.
Proof. exact (split_whitespace_pieces self txt rule sep). Qed.

Lemma split_whitespace_roundtrip_witness :
  exists pieces, _split word_chunker "ab  cd" whitespace_level default_sep = Ret pieces
    /\ pieces <> [] /\ Str.join " " pieces = "ab  cd"%string.
Proof. apply (split_whitespace_roundtrip word_chunker "ab  cd"). reflexivity. Defined.

Lemma join_filter_nonempty (l : list string) :
  Str.join "" (filter Str.nonempty l) = Str.join "" l.
Proof.
  induction l as [|x l IH]; [reflexivity|].
  cbn [filter]. destruct x as [|c x]; cbn [Str.nonempty].
  - rewrite IH, join_empty_cons. reflexivity.
  - rewrite !join_empty_cons, IH. reflexivity.
Qed.

Ltac join_normalize :=
  repeat (rewrite join_empty_app || rewrite join_empty_cons);
  cbn [Str.join String.concat append];
  rewrite ?append_nil_r, ?append_assoc.

Lemma nonempty_false (s : string) : Str.nonempty s = false -> s = ""%string.
Proof. destruct s; [reflexivity | discriminate]. Qed.

(** The loop "Merge short splits" only regroups: joined, its result is what
    was already merged, then [current], then the splits. *)
Lemma merge_short_join (self : RecursiveChunker) (splits : list string) :
  forall current merged,
  Str.join "" (merge_short self splits current merged)
  = (Str.join "" merged ++ current ++ Str.join "" splits)%string.
Proof.
  induction splits as [|split rest IH]; intros current merged; cbn [merge_short].
  - destruct (Str.nonempty current) eqn:Hcur.
    + join_normalize. reflexivity.
    + apply nonempty_false in Hcur. subst. join_normalize. reflexivity.
  - destruct (Str.strlen split <? min_characters_per_chunk self).
    + destruct (_ >=? _); rewrite IH; join_normalize; reflexivity.
    + destruct (Str.nonempty current) eqn:Hcur.
      * destruct (_ >=? _); rewrite IH; join_normalize; reflexivity.
      * apply nonempty_false in Hcur. subst.
        destruct (_ >=? _); rewrite IH; join_normalize; reflexivity.
Qed.

(** X4.  In delimiter mode the pieces returned, concatenated, are the pieces
    of the separator split, concatenated: dropping the empty pieces and
    merging the short ones loses no character.  Joined with the separator, the
    pieces of the separator split are the text after the delimiters were
    rewritten. *)
Theorem split_delimiter_keeps_text (self : RecursiveChunker) (txt : string)
  (rule : RecursiveLevel) (sep : string) (pieces : list string) :
  whitespace_delimiter rule = false -> custom_delimiters rule = true ->
  _split self txt rule sep = Ret pieces ->
  exists ds raw,
    delimiters rule = Some ds
    /\ Str.split (rewrite_delimiters txt rule sep ds) sep = Ret raw
    /\ Str.join sep raw = rewrite_delimiters txt rule sep ds
    /\ Str.join "" pieces = Str.join "" raw.
Proof.
  intros Hws Hcustom Hrun. unfold _split in Hrun. rewrite Hws, Hcustom in Hrun.
  destruct (delimiters rule) as [ds|]; [|discriminate].
  destruct (Str.split (rewrite_delimiters txt rule sep ds) sep) as [raw| | |] eqn:Hraw;
    try discriminate.
  cbn [bind] in Hrun. injection Hrun as <-.
  exists ds, raw. split; [reflexivity|]. split; [exact Hraw|].
  split; [now apply join_split|].
  rewrite merge_short_join, join_filter_nonempty. reflexivity.
Qed.

Lemma split_delimiter_keeps_text_witness :
  exists ds raw,
    delimiters (delimiter_level ["."%string] Prev) = Some ds
    /\ Str.split (rewrite_delimiters "a.bb.cccc." (delimiter_level ["."%string] Prev)
                    default_sep ds) default_sep = Ret raw
    /\ Str.join default_sep raw
       = rewrite_delimiters "a.bb.cccc." (delimiter_level ["."%string] Prev)
           default_sep ds
    /\ Str.join "" ["a.bb."; "cccc."]%string = Str.join "" raw.
Proof.
  apply (split_delimiter_keeps_text (char_chunker [] 4 3) "a.bb.cccc."
           (delimiter_level ["."%string] Prev) default_sep).
  - reflexivity.
  - reflexivity.
  - reflexivity.
Defined.

Lemma windows_spec (size : nat) (turns : nat) : forall encoded,
  (0 < size)%nat -> (List.length encoded <= turns)%nat ->
  let ws := windows turns size encoded in
  List.concat ws = encoded
  /\ Forall (fun w => w <> [] /\ (List.length w <= size)%nat) ws
  /\ Forall (fun w => List.length w = size) (removelast ws)
  /\ len ws = (len encoded + Z.of_nat size - 1) / Z.of_nat size.
Proof.
  induction turns as [|turns IH]; intros encoded Hsize Hlen.
  - destruct encoded; [|cbn in Hlen; lia]. cbn.
    repeat split; try constructor. symmetry. apply Z.div_small. lia.
  - destruct encoded as [|x rest].
    { cbn. repeat split; try constructor. symmetry. apply Z.div_small. lia. }
    cbn [windows]. set (l := x :: rest) in *.
    assert (Hskip : List.length (skipn size l) = (List.length l - size)%nat)
      by apply length_skipn.
    destruct (IH (skipn size l) Hsize) as (Hcat & Hall & Hfull & Hcount).
    { rewrite Hskip. lia. }
    assert (Hl : (1 <= List.length l)%nat) by (cbn; lia).
    assert (Hfirst : List.length (firstn size l) = Nat.min size (List.length l))
      by apply length_firstn.
    split; [cbn [List.concat]; rewrite Hcat; apply firstn_skipn|].
    split.
    { constructor; [|exact Hall]. split; [|lia].
      intros H. rewrite H in Hfirst. cbn in Hfirst. lia. }
    split.
    { cbn [removelast]. destruct (windows turns size (skipn size l)) eqn:Hws;
        [constructor|]. constructor; [|exact Hfull].
      destruct (skipn size l) eqn:Hs.
      - destruct turns; discriminate Hws.
      - cbn [List.length] in Hskip. lia. }
    unfold len in *. cbn [List.length]. rewrite Nat2Z.inj_succ, Hcount, Hskip.
    destruct (Nat.le_gt_cases (List.length l) size) as [Hshort|Hlong].
    + replace (List.length l - size)%nat with 0%nat by lia.
      rewrite (Z.div_small (Z.of_nat 0 + _ - 1)) by lia.
      apply Z.div_unique with (r := Z.of_nat (List.length l) - 1); lia.
    + rewrite Nat2Z.inj_sub by lia.
      replace (Z.of_nat (List.length l) + Z.of_nat size - 1)
        with (Z.of_nat (List.length l) - Z.of_nat size + Z.of_nat size - 1
              + 1 * Z.of_nat size) by lia.
      rewrite Z.div_add by lia. lia.
Qed.

(** X5.  In token-window mode, with [chunk_size >= 1], the splitter decodes
    consecutive windows of the encoded text: the windows concatenated are the
    encoding, no window is empty or longer than [chunk_size], every window but
    the last has exactly [chunk_size] tokens, and there are
    [ceil(len(encoded) / chunk_size)] of them. *)
Theorem split_token_windows (self : RecursiveChunker) (txt : string)
  (rule : RecursiveLevel) (sep : string) :
  whitespace_delimiter rule = false -> custom_delimiters rule = false ->
  0 < chunk_size self ->
  exists ws,
    _split self txt rule sep = Ret (decode_batch (tokenizer self) ws)
    /\ List.concat ws = encode (tokenizer self) txt
    /\ Forall (fun w => w <> [] /\ len w <= chunk_size self) ws
    /\ Forall (fun w => len w = chunk_size self) (removelast ws)
    /\ len ws = (len (encode (tokenizer self) txt) + chunk_size self - 1)
                / chunk_size self.
Proof.
  intros Hws Hcustom Hcs. unfold _split, token_windows. rewrite Hws, Hcustom.
  replace (chunk_size self =? 0) with false by (symmetry; apply Z.eqb_neq; lia).
  replace (chunk_size self <? 0) with false by (symmetry; apply Z.ltb_ge; lia).
  cbn [bind]. eexists. split; [reflexivity|].
  destruct (windows_spec (Z.to_nat (chunk_size self))
              (List.length (encode (tokenizer self) txt))
              (encode (tokenizer self) txt) ltac:(lia) ltac:(lia))
    as (Hcat & Hall & Hfull & Hcount).
  split; [exact Hcat|]. split.
  { revert Hall. apply Forall_impl. intros w [Hne Hle]. split; [exact Hne|].
    unfold len. lia. }
  split.
  { revert Hfull. apply Forall_impl. intros w Hw. unfold len. lia. }
  rewrite Hcount. rewrite Z2Nat.id by lia. reflexivity.
Qed.

Lemma split_token_windows_witness :
  exists ws,
    _split (char_chunker [token_level] 4 1) "abcdefghij" token_level default_sep
    = Ret (decode_batch char_tokenizer ws)
    /\ len ws = 3.
Proof.
  destruct (split_token_windows (char_chunker [token_level] 4 1) "abcdefghij"
              token_level default_sep) as (ws & Hrun & _ & _ & _ & Hcount).
  - reflexivity.
  - reflexivity.
  - reflexivity.
  - exists ws. split; [exact Hrun | exact Hcount].
Defined.

(** ** The merger, group by group *)

Lemma add_assoc (x y z : num) : Num.add (Num.add x y) z = Num.add x (Num.add y z).
Proof. destruct x, y, z; simpl; try reflexivity. f_equal. lia. Qed.

Lemma add_zero_l (x : num) : Num.add (Int 0) x = x.
Proof. destruct x; reflexivity. Qed.

Lemma sum_app (l1 l2 : list num) :
  Num.sum (l1 ++ l2) = Num.add (Num.sum l1) (Num.sum l2).
Proof.
  induction l1 as [|x l1 IH]; cbn [app Num.sum fold_right].
  - now rewrite add_zero_l.
  - fold (Num.sum (l1 ++ l2)). fold (Num.sum l1). now rewrite IH, add_assoc.
Qed.

Lemma len_map {A B : Type} (f : A -> B) (l : list A) : len (map f l) = len l.
Proof. unfold len. now rewrite length_map. Qed.

Lemma slice_map {A B : Type} (f : A -> B) (l : list A) (a b : Z) :
  map f (slice l a b) = slice (map f l) a b.
Proof.
  unfold slice, clip. rewrite !len_map.
  now rewrite <- firstn_map, <- skipn_map.
Qed.

Lemma map_fst_combine {A B : Type} (l1 : list A) : forall l2 : list B,
  List.length l1 = List.length l2 -> map fst (combine l1 l2) = l1.
Proof.
  induction l1 as [|x l1 IH]; intros [|y l2] H; try discriminate; [reflexivity|].
  cbn. f_equal. apply IH. now injection H.
Qed.

Lemma map_snd_combine {A B : Type} (l1 : list A) : forall l2 : list B,
  List.length l1 = List.length l2 -> map snd (combine l1 l2) = l2.
Proof.
  induction l1 as [|x l1 IH]; intros [|y l2] H; try discriminate; [reflexivity|].
  cbn. f_equal. apply IH. now injection H.
Qed.

Lemma len_slice {A : Type} (l : list A) (a b : Z) :
  0 <= a <= b -> b <= len l -> len (slice l a b) = b - a.
Proof.
  intros Hab Hb. rewrite slice_inside by lia. unfold len in *.
  rewrite length_firstn, length_skipn. lia.
Qed.

Section GroupFacts.

Variables (cs : Z) (cw : bool) (splits : list string) (counts : list num).
Hypothesis Hcs : 0 < cs.
Hypothesis Hlen : List.length splits = List.length counts.
Hypothesis Hcounts : Forall Num.is_count counts.

Abbreviation n := (len splits).
Abbreviation cum := (cumulative cw counts).
Abbreviation cumn i := (nth (Z.to_nat i) (cumulative cw counts) NaN).
Abbreviation items := (combine splits counts).

Let good (g : list (string * num)) : Prop :=
  g <> [] /\ (List.length g = 1%nat \/ Num.ltb (group_count cw g) (Int cs) = true).

Lemma len_items : len items = n.
Proof. unfold len. rewrite length_combine, <- Hlen. lia. Qed.

(** The count recorded for the pieces from [c] to [c'] is the count of their
    group. *)
Lemma cum_delta (c c' : Z) :
  0 <= c <= c' -> c' <= n -> Num.is_int (cumn c) ->
  Num.sub (cumn c') (cumn c) = group_count cw (slice items c c').
Proof.
  intros Hc Hc' Hint. unfold group_count.
  rewrite slice_map, map_snd_combine by exact Hlen.
  rewrite len_slice by (try rewrite len_items; lia).
  rewrite (cumn_sum cw splits counts Hlen Hcounts c') by lia.
  rewrite (cumn_sum cw splits counts Hlen Hcounts c) in Hint |- * by lia.
  assert (Hc'len : c' <= len counts) by (unfold len in *; lia).
  rewrite (firstn_slice counts c c') by lia. rewrite sum_app.
  pose proof (sum_count _ (Forall_firstn Num.is_count (Z.to_nat c) counts Hcounts)) as H1.
  assert (H2 : Num.is_count (Num.sum (slice counts c c'))).
  { apply sum_count. rewrite slice_inside by lia.
    now apply Forall_firstn, Forall_skipn. }
  destruct (Num.sum (firstn (Z.to_nat c) counts)), (Num.sum (slice counts c c')), cw;
    simpl in H1, H2, Hint |- *; try contradiction; try reflexivity; f_equal; lia.
Qed.

(** One turn from a position whose running sum is an integer appends one good
    group. *)
Lemma merge_body_group (st : merge_state) :
  (0 <= current_index st <= n
   /\ forall i, 0 <= i < current_index st -> Num.is_int (cumn i)) ->
  current_index st < n -> Num.is_int (cumn (current_index st)) ->
  exists c', current_index st < c' <= n
    /\ (forall i, 0 <= i < c' -> Num.is_int (cumn i))
    /\ good (slice items (current_index st) c')
    /\ merge_body cs cw splits cum st
       = Ret {| current_index := c';
                merged := merged st
                          ++ [group_text cw (slice items (current_index st) c')];
                combined_token_counts :=
                  combined_token_counts st
                  ++ [group_count cw (slice items (current_index st) c')] |}.
Proof.
  intros Hinv Hcn Hint.
  pose proof (merge_body_spec cs cw splits counts Hcs Hlen Hcounts st) as Hspec.
  cbv zeta in Hspec. destruct (Hspec Hinv Hcn) as (j & Hj & Hbody & Hinv' & _ & Hfwd & _).
  pose proof (merge_search_spec cs cw splits counts Hcs Hlen Hcounts (current_index st))
    as Hsearch.
  cbv zeta in Hsearch.
  destruct (Hsearch Hinv Hcn) as (j' & Hj' & _ & _ & Hjint & Hbelow & _).
  rewrite Hj in Hj'. injection Hj' as <-. clear Hspec Hsearch.
  set (c := current_index st) in *.
  set (c' := if j =? c then j + 1 else j) in *.
  specialize (Hfwd Hint). destruct Hinv' as [Hc' Hbefore'].
  exists c'. split; [lia|]. split; [exact Hbefore'|].
  assert (Hdelta : Num.sub (cumn c') (cumn c) = group_count cw (slice items c c')).
  { apply cum_delta; [lia | lia | exact Hint]. }
  split.
  - split.
    + intros H. apply (f_equal len) in H.
      rewrite len_slice in H by (try rewrite len_items; lia). cbn in H. lia.
    + destruct (j =? c) eqn:E.
      * left. apply Z.eqb_eq in E.
        assert (len (slice items c c') = 1)
          by (rewrite len_slice by (try rewrite len_items; lia); lia).
        unfold len in *. lia.
      * right. rewrite <- Hdelta. subst c'.
        destruct (cumn j); try contradiction. destruct (cumn c); try contradiction.
        simpl in Hbelow |- *. apply Z.ltb_lt in Hbelow. apply Z.ltb_lt. lia.
  - rewrite Hbody. f_equal. f_equal.
    + f_equal. unfold group_text. rewrite slice_map.
      now rewrite map_fst_combine by exact Hlen.
    + now rewrite Hdelta.
Qed.

Lemma merge_while_groups (turns : nat) : forall st m cmb groups,
  (forall i, 0 <= i < n -> Num.is_int (cumn i)) ->
  (0 <= current_index st <= n /\
   forall i, 0 <= i < current_index st -> Num.is_int (cumn i)) ->
  List.concat groups = firstn (Z.to_nat (current_index st)) items ->
  merged st = map (group_text cw) groups ->
  combined_token_counts st = map (group_count cw) groups ->
  Forall good groups ->
  merge_while cs turns cw splits cum st = Ret (m, cmb) ->
  exists groups',
    List.concat groups' = items
    /\ m = map (group_text cw) groups'
    /\ cmb = map (group_count cw) groups'
    /\ Forall good groups'.
Proof.
  induction turns as [|turns IH]; intros st m cmb groups Hall Hinv Hcat Hm Hc Hgood Hrun;
    cbn [merge_while] in Hrun;
    destruct (current_index st <? n) eqn:Hlt; try discriminate;
    try (apply Z.ltb_ge in Hlt; injection Hrun as <- <-; exists groups;
         split; [|auto]; rewrite Hcat; apply firstn_all2;
         pose proof len_items; unfold len in *; lia).
  apply Z.ltb_lt in Hlt.
  destruct (merge_body_group st Hinv Hlt (Hall _ (conj (proj1 (proj1 Hinv)) Hlt)))
    as (c' & Hc' & Hbefore' & Hg & Hbody).
  rewrite Hbody in Hrun. cbn [bind] in Hrun.
  apply (IH _ m cmb (groups ++ [slice items (current_index st) c'])) in Hrun;
    [exact Hrun | exact Hall | cbn; split; [lia | exact Hbefore'] | | | |].
  - cbn [current_index]. rewrite concat_app, Hcat. cbn [List.concat].
    rewrite app_nil_r. symmetry. apply firstn_slice; [|rewrite len_items]; lia.
  - cbn [merged]. now rewrite map_app, Hm.
  - cbn [combined_token_counts]. now rewrite map_app, Hc.
  - apply Forall_app. split; [exact Hgood | constructor; [exact Hg | constructor]].
Qed.

End GroupFacts.

Lemma merge_groups_of_run (cs : Z) (turns : nat) (splits : list string)
  (counts : list num) (cw : bool) (merged : list string) (combined : list num) :
  0 < cs -> List.length splits = List.length counts -> Forall Num.is_count counts ->
  splits <> [] -> all_oversized cs counts = false ->
  _merge_splits cs turns splits counts cw = Ret (merged, combined) ->
  exists groups : list (list (string * num)),
    List.concat groups = combine splits counts
    /\ merged = map (group_text cw) groups
    /\ combined = map (group_count cw) groups
    /\ Forall (fun g => g <> []
                 /\ (List.length g = 1%nat
                     \/ Num.ltb (group_count cw g) (Int cs) = true)) groups.
Proof.
  intros Hcs Hlen Hcounts Hne Hover Hrun.
  rewrite merge_splits_loop in Hrun by assumption.
  destruct (sums_int_or_inf cw splits counts Hlen Hcounts) as [Hall|(f & Hf & Hinf)].
  - apply (merge_while_groups cs cw splits counts Hcs Hlen Hcounts turns
             {| current_index := 0; merged := []; combined_token_counts := [] |}
             merged combined []
             Hall (merge_inv_start _ _ _) eq_refl eq_refl eq_refl (Forall_nil _) Hrun).
  - rewrite (merge_while_stuck cs cw splits counts Hcs Hlen Hcounts f turns) in Hrun;
      [discriminate | exact Hf | exact Hinf | apply merge_inv_start].
Qed.

(** X6.  Outside the fast path, a result of the merger is made of consecutive
    groups of the splits, each with its token counts: the groups in order are
    all the splits, every merged piece is the join of its group, every recorded
    count is the sum of the group's counts (plus one per piece with
    [combine_whitespace]), no group is empty, and a group of several pieces
    has a recorded count strictly below [chunk_size]. *)
Theorem merge_groups (cs : Z) (turns : nat) (splits : list string)
  (counts : list num) (cw : bool) (merged : list string) (combined : list num) :
  0 < cs -> List.length splits = List.length counts -> Forall Num.is_count counts ->
  splits <> [] -> all_oversized cs counts = false ->
  _merge_splits cs turns splits counts cw = Ret (merged, combined) ->
  exists groups : list (list (string * num)),
    List.concat groups = combine splits counts
    /\ merged = map (group_text cw) groups
    /\ combined = map (group_count cw) groups
    /\ Forall (fun g => g <> []
                 /\ (List.length g = 1%nat
                     \/ Num.ltb (group_count cw g) (Int cs) = true)) groups.
Proof. exact (merge_groups_of_run cs turns splits counts cw merged combined). Qed.

Lemma merge_groups_witness :
  exists groups : list (list (string * num)),
    List.concat groups = combine ["a"; "b"; "c"]%string [Int 2; Int 3; Int 4]
    /\ ["ab"; "c"]%string = map (group_text false) groups
    /\ [Int 5; Int 4] = map (group_count false) groups
    /\ Forall (fun g => g <> []
                 /\ (List.length g = 1%nat
                     \/ Num.ltb (group_count false g) (Int 6) = true)) groups.
Proof.
  apply (merge_groups 6 3 ["a"; "b"; "c"]%string [Int 2; Int 3; Int 4] false).
  - lia.
  - reflexivity.
  - repeat constructor.
  - discriminate.
  - reflexivity.
  - reflexivity.
Defined.

Lemma concat_singletons {A : Type} (l : list A) :
  List.concat (map (fun x => [x]) l) = l.
Proof. induction l as [|x l IH]; [reflexivity | cbn; now rewrite IH]. Qed.

Lemma merge_partition_of_run (cs : Z) (turns : nat) (splits : list string)
  (counts : list num) (cw : bool) (merged : list string) (combined : list num) :
  0 < cs -> List.length splits = List.length counts -> Forall Num.is_count counts ->
  _merge_splits cs turns splits counts cw = Ret (merged, combined) ->
  List.length combined = List.length merged
  /\ exists groups : list (list string),
       List.concat groups = splits
       /\ Forall (fun g => g <> []) groups
       /\ merged = map (Str.join (if cw then " " else "")) groups.
Proof.
  intros Hcs Hlen Hcounts Hrun.
  destruct splits as [|s splits].
  { cbn in Hrun. inversion Hrun. split; [reflexivity|]. exists []. repeat split.
    constructor. }
  destruct (all_oversized cs counts) eqn:Hover.
  { unfold _merge_splits in Hrun. destruct counts; [discriminate|].
    cbn [is_empty orb] in Hrun. unfold len in Hrun.
    rewrite Hlen, Z.eqb_refl, Hover in Hrun. cbn in Hrun. inversion Hrun; subst.
    split; [now rewrite Hlen|].
    exists (map (fun x => [x]) (s :: splits)). split; [apply concat_singletons|].
    split.
    - apply Forall_forall. intros g Hg. apply in_map_iff in Hg.
      destruct Hg as (x & <- & _). discriminate.
    - rewrite map_map. cbn. f_equal. symmetry. apply map_id. }
  destruct (merge_groups_of_run cs turns (s :: splits) counts cw merged combined
              Hcs Hlen Hcounts ltac:(discriminate) Hover Hrun)
    as (groups & Hcat & Hm & Hc & Hgood).
  split; [rewrite Hm, Hc; now rewrite !length_map|].
  exists (map (map fst) groups). split.
  - rewrite <- concat_map, Hcat. now apply map_fst_combine.
  - split.
    + apply Forall_forall. intros g Hg. apply in_map_iff in Hg.
      destruct Hg as (g' & <- & Hin). rewrite Forall_forall in Hgood.
      destruct (Hgood g' Hin) as [Hne _]. destruct g'; [contradiction | discriminate].
    + rewrite Hm, map_map. reflexivity.
Qed.

(** X7.  Whatever the merger returns for splits and counts of equal length,
    the merged pieces and the recorded counts are as many, the merged pieces
    are the joins of consecutive non-empty groups of the splits, and the
    groups in order are all the splits. *)
Theorem merge_partitions_splits (cs : Z) (turns : nat) (splits : list string)
  (counts : list num) (cw : bool) (merged : list string) (combined : list num) :
  0 < cs -> List.length splits = List.length counts -> Forall Num.is_count counts ->
  _merge_splits cs turns splits counts cw = Ret (merged, combined) ->
  List.length combined = List.length merged
  /\ exists groups : list (list string),
       List.concat groups = splits
       /\ Forall (fun g => g <> []) groups
       /\ merged = map (Str.join (if cw then " " else "")) groups.
Proof.
  exact (merge_partition_of_run cs turns splits counts cw merged combined).
Qed.

Lemma merge_partitions_splits_witness :
  List.length [Int 5; Int 4] = List.length ["a b"; "c"]%string
  /\ exists groups : list (list string),
       List.concat groups = ["a"; "b"; "c"]%string
       /\ Forall (fun g => g <> []) groups
       /\ ["a b"; "c"]%string = map (Str.join " ") groups.
Proof.
  apply (merge_partitions_splits 6 3 ["a"; "b"; "c"]%string [Int 1; Int 2; Int 3] true).
  - lia.
  - reflexivity.
  - repeat constructor.
  - reflexivity.
Defined.

Lemma join_app (sep : string) (l1 l2 : list string) :
  l1 <> [] -> l2 <> [] ->
  Str.join sep (l1 ++ l2) = (Str.join sep l1 ++ sep ++ Str.join sep l2)%string.
Proof.
  intros H1 H2. induction l1 as [|x l1 IH]; [contradiction|].
  destruct l1 as [|y l1].
  - cbn [app]. now rewrite join_cons.
  - rewrite <- app_comm_cons, join_cons by (destruct l1; discriminate).
    rewrite IH by discriminate. rewrite (join_cons sep x (y :: l1)) by discriminate.
    now rewrite !append_assoc.
Qed.

Lemma join_groups (sep : string) (groups : list (list string)) :
  Forall (fun g => g <> []) groups ->
  Str.join sep (map (Str.join sep) groups) = Str.join sep (List.concat groups).
Proof.
  induction 1 as [|g gs Hg Hgs IH]; [reflexivity|].
  destruct gs as [|g' gs].
  - cbn. now rewrite app_nil_r.
  - cbn [map List.concat] in *. rewrite join_cons by discriminate. rewrite IH.
    rewrite (join_app sep g (g' ++ List.concat gs)); [reflexivity | exact Hg |].
    inversion Hgs; subst. destruct g'; [contradiction | discriminate].
Qed.

(** X8.  A whitespace level keeps the text: when the splitter in whitespace
    mode and then the merger with [combine_whitespace = True] return, the
    merged pieces joined with single spaces are the text. *)
Theorem whitespace_merge_keeps_text (self : RecursiveChunker) (turns : nat)
  (txt : string) (rule : RecursiveLevel) (sep : string) (splits merged : list string)
  (combined : list num) :
  0 < chunk_size self -> whitespace_delimiter rule = true ->
  _split self txt rule sep = Ret splits ->
  _merge_splits (chunk_size self) turns splits
    (map (_estimate_token_count self) splits) true = Ret (merged, combined) ->
  Str.join " " merged = txt.
Proof.
  intros Hcs Hws Hsplit Hmerge.
  destruct (split_whitespace_pieces self txt rule sep Hws) as (p & Hp & _ & Hjoin).
  rewrite Hsplit in Hp. injection Hp as <-.
  assert (Hcounts : Forall Num.is_count (map (_estimate_token_count self) splits)).
  { apply Forall_forall. intros x Hx. apply in_map_iff in Hx.
    destruct Hx as (t & <- & _). apply estimate_count. }
  destruct (merge_partition_of_run _ _ _ _ _ _ _ Hcs
              (eq_sym (length_map _ splits)) Hcounts Hmerge)
    as (_ & groups & Hcat & Hne & ->).
  now rewrite join_groups, Hcat.
Qed.

Lemma whitespace_merge_keeps_text_witness :
  Str.join " " ["ab"; "ab"]%string = "ab ab"%string.
Proof.
  apply (whitespace_merge_keeps_text word_chunker 5 "ab ab" whitespace_level
           default_sep ["ab"; "ab"]%string _ [Int 3; Int 3]).
  - reflexivity.
  - reflexivity.
  - reflexivity.
  - reflexivity.
Defined.

(** ** The materializer: the first occurrence *)

Lemma index_first (sub s : string) : forall i,
  Str.index sub s = Ret i ->
  forall j, (j < i)%nat -> Str.take (String.length sub) (Str.drop j s) <> sub.
Proof.
  induction s as [|c s IH]; intros i Hi j Hj; cbn [Str.index] in Hi.
  - destruct (String.prefix sub ""); [|discriminate]. injection Hi as <-. lia.
  - destruct (String.prefix sub (String c s)) eqn:E; [injection Hi as <-; lia|].
    destruct (Str.index sub s) as [i'| | |] eqn:Hs; try discriminate.
    cbn [bind] in Hi. injection Hi as <-.
    destruct j as [|j].
    + intros H. apply prefix_take in H. cbn [Str.drop] in H.
      pose proof (eq_trans (eq_sym H) E). discriminate.
    + cbn [Str.drop]. apply (IH i' eq_refl). lia.
Qed.

(** X9.  When the materializer finds the text, [start_index] is its first
    occurrence at or after the search offset: the text does not occur at any
    position from the offset up to [start_index]. *)
Theorem convert_to_chunk_first (self : RecursiveChunker) (txt : string)
  (count : num) (lvl : nat) (full_text : option string) (from : nat) :
  let whole := match full_text with None => txt | Some t => t end in
  let c := fst (_convert_to_chunk self txt count lvl full_text from) in
  occurs_from txt whole from ->
  forall i, (from <= i < start_index c)%nat ->
    Str.slice whole i (i + String.length txt) <> txt.
Proof.
  intros whole c Hocc i Hi. subst c. unfold _convert_to_chunk in Hi. fold whole in Hi.
  destruct (Str.index txt (Str.drop from whole)) as [k| | |] eqn:Hk;
    cbn [fst start_index] in Hi; try lia.
  rewrite slice_take_drop.
  replace i with (from + (i - from))%nat by lia. rewrite <- drop_drop.
  apply (index_first _ _ k Hk). lia.
Qed.

Lemma convert_to_chunk_first_witness :
  Str.slice "xab ab" 1 (1 + String.length "ab") = "ab"%string
  /\ Str.slice "xab ab" 0 (0 + String.length "ab") <> "ab"%string.
Proof.
  split; [reflexivity|].
  apply (convert_to_chunk_first word_chunker "ab" (Int 2) 0 (Some "xab ab"%string) 0).
  - exists 1%nat. split; [lia | reflexivity].
  - cbn. lia.
Defined.

(** ** The driver: what every output looks like *)

Lemma convert_shape (self : RecursiveChunker) (txt : string) (count : num)
  (lvl : nat) (full_text : option string) (from : nat) :
  let c := fst (_convert_to_chunk self txt count lvl full_text from) in
  text c = txt /\ token_count c = count /\ level c = lvl
  /\ (end_index c = (start_index c + String.length txt)%nat
      \/ (start_index c = 0%nat /\ end_index c = 0%nat)).
Proof.
  unfold _convert_to_chunk.
  destruct (Str.index _ _); cbn [fst text token_count level start_index end_index];
    repeat (split; [reflexivity|]); [left; reflexivity | right; split; reflexivity ..].
Qed.

Section DriverOutputs.

Variable self : RecursiveChunker.
Variable P : output -> Prop.
Variable R : list string -> Prop.

Hypothesis Hloop : forall txt count lvl full_text,
  (return_type self =? "chunks")%string = true ->
  (lvl < List.length (rules self))%nat ->
  P (Chunk (fst (_convert_to_chunk self txt count lvl full_text 0))).
Hypothesis Hfallback : forall txt full_text,
  (return_type self =? "chunks")%string = true ->
  Str.nonempty txt = true ->
  P (Chunk (fst (_convert_to_chunk self txt (Int (_get_token_count self txt))
                                   (List.length (rules self)) full_text 0))).
Hypothesis Htext : forall s, (return_type self =? "texts")%string = true -> P (Text s).
Hypothesis Rnil : R [].
Hypothesis Rapp : forall a b, R a -> R b -> R (a ++ b).
Hypothesis Rconvert : forall txt count lvl full_text,
  (return_type self =? "chunks")%string = true ->
  R (snd (_convert_to_chunk self txt count lvl full_text 0)).

Lemma chunk_loop_outputs (recur : string -> outcome (list output * list string))
  (rule : RecursiveLevel) (lvl : nat) (pieces : list string) (full : string)
  (items : list (string * num)) :
  (lvl < List.length (rules self))%nat ->
  (forall split outs printed,
     recur split = Ret (outs, printed) -> Forall P outs /\ R printed) ->
  forall outs printed,
  chunk_loop self recur rule lvl pieces full items = Ret (outs, printed) ->
  Forall P outs /\ R printed.
Proof.
  intros Hlvl Hrecur. induction items as [|[split count] items IH];
    intros outs printed Hrun.
  - inversion Hrun. split; [constructor | exact Rnil].
  - cbn [chunk_loop] in Hrun.
    match type of Hrun with bind ?c _ = _ => destruct c as [[o1 p1]| | |] eqn:Hhere end;
      try discriminate.
    cbn [bind] in Hrun.
    destruct (chunk_loop self recur rule lvl pieces full items)
      as [[o2 p2]| | |] eqn:Hrest; try discriminate.
    cbn [bind fst snd] in Hrun. inversion Hrun; subst.
    destruct (IH o2 p2 eq_refl) as [IHo IHp].
    assert (Hfirst : Forall P o1 /\ R p1).
    { destruct (Num.gtb count (Int (chunk_size self))); [eapply Hrecur; eauto|].
      destruct (return_type self =? "chunks")%string eqn:Hc.
      - pose proof (Hloop split count lvl
          (Some (if no_delim rule then Str.join "" pieces else full)) eq_refl Hlvl) as HP.
        pose proof (Rconvert split count lvl
          (Some (if no_delim rule then Str.join "" pieces else full)) eq_refl) as HR.
        destruct (_convert_to_chunk self split count lvl _ 0) as [c p].
        inversion Hhere; subst. split; [repeat constructor; exact HP | exact HR].
      - destruct (return_type self =? "texts")%string eqn:Ht; inversion Hhere; subst;
          (split; [repeat constructor; auto | exact Rnil]). }
    destruct Hfirst as [Ho Hp]. split; [apply Forall_app; auto | apply Rapp; auto].
Qed.

Lemma chunk_helper_outputs (turns depth : nat) :
  forall txt lvl full_text outs printed,
  (lvl <= List.length (rules self))%nat ->
  _chunk_helper self turns depth txt lvl full_text = Ret (outs, printed) ->
  Forall P outs /\ R printed.
Proof.
  induction depth as [|depth IH]; intros txt lvl full_text outs printed Hle Hrun;
    cbn [_chunk_helper] in Hrun;
    (destruct (Str.nonempty txt) eqn:Hne; cbn [negb] in Hrun;
     [|inversion Hrun; subst; split; [apply Forall_nil | exact Rnil]]);
    (destruct (List.length (rules self) <=? lvl)%nat eqn:Hlvl;
     [ apply Nat.leb_le in Hlvl;
       destruct (return_type self =? "texts")%string eqn:Ht;
       [inversion Hrun; subst; split;
        [apply Forall_cons; [apply Htext; reflexivity | apply Forall_nil] | exact Rnil]|];
       destruct (return_type self =? "chunks")%string eqn:Hc; [|discriminate];
       assert (lvl = List.length (rules self)) by lia; subst lvl;
       pose proof (Hfallback txt full_text eq_refl Hne) as HP;
       pose proof (Rconvert txt (Int (_get_token_count self txt))
                     (List.length (rules self)) full_text eq_refl) as HR;
       destruct (_convert_to_chunk self txt _ _ full_text 0) as [c p];
       inversion Hrun; subst; split;
       [apply Forall_cons; [exact HP | apply Forall_nil] | exact HR]
     | apply Nat.leb_gt in Hlvl ]); [discriminate|].
  destruct (nth_error (recursive_rules self) lvl) as [rule|]; [|discriminate].
  cbn [bind] in Hrun.
  destruct (_split self txt rule default_sep) as [splits| | |]; try discriminate.
  cbn [bind] in Hrun.
  match type of Hrun with bind ?c _ = _ => destruct c as [[m cmb]| | |] end;
    try discriminate.
  cbn [bind fst snd] in Hrun.
  refine (chunk_loop_outputs _ _ _ _ _ _ Hlvl _ _ _ Hrun).
  intros split outs' printed' Hrec. eapply IH; [|exact Hrec]. lia.
Qed.

End DriverOutputs.

(** X10.  The outputs of [chunk] have the shape of [return_type]: a
    [RecursiveChunk] is produced only when [return_type] is ["chunks"], a plain
    string only when it is ["texts"], and when it is not ["chunks"] nothing is
    printed. *)
Theorem chunk_output_kind (self : RecursiveChunker) (turns : nat) (txt : string)
  (outs : list output) (printed : list string) :
  chunk self turns txt = Ret (outs, printed) ->
  Forall (fun o => match o with
                   | Chunk _ => return_type self = "chunks"%string
                   | Text _ => return_type self = "texts"%string
                   end) outs
  /\ (return_type self <> "chunks"%string -> printed = []).
Proof.
  intros Hrun.
  apply (chunk_helper_outputs self
           (fun o => match o with
                     | Chunk _ => return_type self = "chunks"%string
                     | Text _ => return_type self = "texts"%string
                     end)
           (fun l => return_type self <> "chunks"%string -> l = [])) in Hrun;
    [exact Hrun | | | | | | | lia].
  - intros. now apply String.eqb_eq.
  - intros. now apply String.eqb_eq.
  - intros. now apply String.eqb_eq.
  - reflexivity.
  - intros a b Ha Hb Hne. now rewrite Ha, Hb.
  - intros ? ? ? ? Hc Hne. apply String.eqb_eq in Hc. contradiction.
Qed.

Lemma chunk_output_kind_witness :
  Forall (fun o => match o with
                   | Chunk _ => return_type word_chunker = "chunks"%string
                   | Text _ => return_type word_chunker = "texts"%string
                   end)
         [Chunk {| text := "ab"; start_index := 0; end_index := 2;
                   token_count := Int 3; level := 0 |}]
  /\ (return_type word_chunker <> "chunks"%string -> @nil string = []).
Proof.
  apply (chunk_output_kind word_chunker 10 "ab"). vm_compute. reflexivity.
Defined.

(** X11.  Every chunk that [chunk] returns has a level between 0 and the
    number of rules, and either [end_index = start_index + len(text)] or both
    indexes are 0.  A chunk at the level of the number of rules comes from the
    fallback: its text is not empty and its token count is
    [_get_token_count(text)]. *)
Theorem chunk_output_shape (self : RecursiveChunker) (turns : nat) (txt : string)
  (outs : list output) (printed : list string) :
  chunk self turns txt = Ret (outs, printed) ->
  forall c, In (Chunk c) outs ->
    (level c <= List.length (rules self))%nat
    /\ (end_index c = (start_index c + String.length (text c))%nat
        \/ (start_index c = 0%nat /\ end_index c = 0%nat))
    /\ (level c = List.length (rules self) ->
        text c <> ""%string
        /\ token_count c = Int (_get_token_count self (text c))).
Proof.
  intros Hrun c Hin.
  apply (chunk_helper_outputs self
           (fun o => match o with
                     | Chunk c =>
                         (level c <= List.length (rules self))%nat
                         /\ (end_index c = (start_index c + String.length (text c))%nat
                             \/ (start_index c = 0%nat /\ end_index c = 0%nat))
                         /\ (level c = List.length (rules self) ->
                             text c <> ""%string
                             /\ token_count c = Int (_get_token_count self (text c)))
                     | Text _ => True
                     end)
           (fun _ => True)) in Hrun; try (intros; exact I); try lia.
  - destruct Hrun as [Hall _]. rewrite Forall_forall in Hall. exact (Hall _ Hin).
  - intros t count lvl ft _ Hlvl.
    destruct (convert_shape self t count lvl ft 0) as (Ht & _ & Hl & Hidx).
    rewrite Ht, Hl. split; [lia|]. split; [exact Hidx | lia].
  - intros t ft _ Hne.
    destruct (convert_shape self t (Int (_get_token_count self t))
                (List.length (rules self)) ft 0) as (Ht & Hc & Hl & Hidx).
    rewrite Ht, Hl, Hc. split; [lia|]. split; [exact Hidx|].
    intros _. split; [now apply nonempty_iff | reflexivity].
Qed.

Lemma chunk_output_shape_witness :
  (level {| text := "abc"; start_index := 0; end_index := 3;
            token_count := Int 3; level := 1 |}
   <= List.length (rules (char_chunker [whitespace_level] 2 1)))%nat.
Proof.
  apply (chunk_output_shape (char_chunker [whitespace_level] 2 1) 10 "abc"
           [Chunk {| text := "abc"; start_index := 0; end_index := 3;
                     token_count := Int 3; level := 1 |}] []).
  - vm_compute. reflexivity.
  - left. reflexivity.
Defined.

(** ** The driver: no exception *)

Lemma merge_while_never_raises (cs : Z) (cw : bool) (splits : list string)
  (counts : list num) (turns : nat) :
  0 < cs -> List.length splits = List.length counts -> Forall Num.is_count counts ->
  forall st e,
  (0 <= current_index st <= len splits
   /\ forall i, 0 <= i < current_index st ->
        Num.is_int (nth (Z.to_nat i) (cumulative cw counts) NaN)) ->
  merge_while cs turns cw splits (cumulative cw counts) st <> Raise e.
Proof.
  intros Hcs Hlen Hcounts.
  induction turns as [|turns IH]; intros st e Hinv; cbn [merge_while];
    destruct (current_index st <? len splits) eqn:Hlt; try discriminate.
  apply Z.ltb_lt in Hlt.
  pose proof (merge_body_spec cs cw splits counts Hcs Hlen Hcounts st) as Hspec.
  cbv zeta in Hspec. destruct (Hspec Hinv Hlt) as (j & _ & Hbody & Hinv' & _).
  rewrite Hbody. cbn [bind]. apply IH. exact Hinv'.
Qed.

Lemma merge_splits_never_raises (cs : Z) (turns : nat) (splits : list string)
  (counts : list num) (cw : bool) (e : exn) :
  0 < cs -> List.length splits = List.length counts -> Forall Num.is_count counts ->
  _merge_splits cs turns splits counts cw <> Raise e.
Proof.
  intros Hcs Hlen Hcounts. unfold _merge_splits.
  destruct (is_empty splits || is_empty counts); [discriminate|].
  unfold len. rewrite Hlen, Z.eqb_refl. cbn [negb].
  destruct (all_oversized cs counts); [discriminate|].
  apply merge_while_never_raises; try assumption. apply merge_inv_start.
Qed.

Lemma split_never_raises (self : RecursiveChunker) (txt : string)
  (rule : RecursiveLevel) (e : exn) :
  0 < chunk_size self -> level_has_delimiters rule ->
  _split self txt rule default_sep <> Raise e.
Proof.
  intros Hcs Hrule. unfold _split, token_windows.
  destruct (whitespace_delimiter rule) eqn:Hws; [discriminate|].
  destruct (custom_delimiters rule) eqn:Hcustom.
  - specialize (Hrule Hws Hcustom). destruct (delimiters rule); [|contradiction].
    discriminate.
  - replace (chunk_size self =? 0) with false by (symmetry; apply Z.eqb_neq; lia).
    replace (chunk_size self <? 0) with false by (symmetry; apply Z.ltb_ge; lia).
    discriminate.
Qed.

Lemma chunk_loop_never_raises (self : RecursiveChunker)
  (recur : string -> outcome (list output * list string))
  (rule : RecursiveLevel) (lvl : nat) (pieces : list string) (full : string)
  (items : list (string * num)) (e : exn) :
  (forall split e', recur split <> Raise e') ->
  chunk_loop self recur rule lvl pieces full items <> Raise e.
Proof.
  intros Hrecur. induction items as [|[split count] items IH]; [discriminate|].
  cbn [chunk_loop].
  match goal with |- bind ?c _ <> _ => assert (Hhere : forall e', c <> Raise e') end.
  { intros e'. destruct (Num.gtb count _); [apply Hrecur|].
    destruct (return_type self =? "chunks")%string.
    - destruct (_convert_to_chunk _ _ _ _ _ _). discriminate.
    - destruct (return_type self =? "texts")%string; discriminate. }
  match goal with |- bind ?c _ <> _ => destruct c eqn:Hc end; cbn [bind];
    try discriminate; [|exfalso; eapply Hhere; reflexivity].
  destruct (chunk_loop self recur rule lvl pieces full items); cbn [bind];
    try discriminate. exact IH.
Qed.

Lemma chunk_helper_never_raises (self : RecursiveChunker) (turns depth : nat) :
  0 < chunk_size self ->
  (return_type self = "chunks"%string \/ return_type self = "texts"%string) ->
  (List.length (rules self) <= List.length (recursive_rules self))%nat ->
  Forall level_has_delimiters (recursive_rules self) ->
  forall txt lvl full_text e,
  _chunk_helper self turns depth txt lvl full_text <> Raise e.
Proof.
  intros Hcs Hrt Hlen Hrules.
  induction depth as [|depth IH]; intros txt lvl full_text e;
    cbn [_chunk_helper];
    (destruct (negb (Str.nonempty txt)); [discriminate|]);
    (destruct (List.length (rules self) <=? lvl)%nat eqn:Hlvl;
     [ destruct (return_type self =? "texts")%string eqn:Ht; [discriminate|];
       destruct (return_type self =? "chunks")%string eqn:Hc;
       [ destruct (_convert_to_chunk _ _ _ _ _ _); discriminate
       | exfalso; apply String.eqb_neq in Ht; apply String.eqb_neq in Hc; tauto ]
     | apply Nat.leb_gt in Hlvl ]); [discriminate|].
  destruct (nth_error (recursive_rules self) lvl) as [rule|] eqn:Hnth.
  2:{ apply nth_error_None in Hnth. lia. }
  cbn [bind].
  assert (Hrule : level_has_delimiters rule).
  { rewrite Forall_forall in Hrules. apply Hrules. eapply nth_error_In; eauto. }
  pose proof (fun e' => split_never_raises self txt rule e' Hcs Hrule) as Hsplit.
  destruct (_split self txt rule default_sep) as [splits| | |] eqn:Hs;
    try discriminate; [|exfalso; eapply Hsplit; reflexivity].
  cbn [bind].
  assert (Hcounts : Forall Num.is_count (map (_estimate_token_count self) splits)).
  { apply Forall_forall. intros x Hx. apply in_map_iff in Hx.
    destruct Hx as (t & <- & _). apply estimate_count. }
  match goal with |- bind ?c _ <> _ => assert (Hmc : forall e', c <> Raise e') end.
  { intros e'. destruct (delimiters rule), (whitespace rule); try discriminate;
      apply merge_splits_never_raises; try assumption; now rewrite length_map. }
  match goal with |- bind ?c _ <> _ => destruct c eqn:Hm end; cbn [bind];
    try discriminate; [|exfalso; eapply Hmc; reflexivity].
  apply chunk_loop_never_raises. intros split e'. apply IH.
Qed.

(** X12.  For a chunker with [chunk_size >= 1], a [return_type] of ["chunks"]
    or ["texts"], a rule for every level below the number of rules and
    delimiters in every rule that takes the delimiter branch, [chunk] raises
    no exception: it returns, or its merge loop is still running when the
    turns allowed are used up. *)
Theorem chunk_never_raises (self : RecursiveChunker) (turns : nat) (txt : string) :
  0 < chunk_size self ->
  (return_type self = "chunks"%string \/ return_type self = "texts"%string) ->
  (List.length (rules self) <= List.length (recursive_rules self))%nat ->
  Forall level_has_delimiters (recursive_rules self) ->
  (exists outs printed, chunk self turns txt = Ret (outs, printed))
  \/ chunk self turns txt = Loops.
Proof.
  intros Hcs Hrt Hlen Hrules.
  pose proof (chunk_depth self turns txt) as Hdepth.
  pose proof (fun e => chunk_helper_never_raises self turns (List.length (rules self))
                         Hcs Hrt Hlen Hrules txt 0%nat (Some txt) e) as Hraise.
  fold (chunk self turns txt) in Hraise.
  destruct (chunk self turns txt) as [[outs printed]|e| |].
  - left. eauto.
  - exfalso. eapply Hraise. reflexivity.
  - right. reflexivity.
  - contradiction.
Qed.

Lemma chunk_never_raises_witness :
  (exists outs printed, chunk sentence_chunker 7 "aaaaaaaaaaaa.b" = Ret (outs, printed))
  \/ chunk sentence_chunker 7 "aaaaaaaaaaaa.b" = Loops.
Proof.
  apply (chunk_never_raises sentence_chunker 7 "aaaaaaaaaaaa.b").
  - reflexivity.
  - left. reflexivity.
  - cbn. lia.
  - repeat constructor; intros ? ?; discriminate.
Defined.

(** ** The merger: when it returns *)

Lemma step_int_count (cw : bool) (x y : num) :
  Num.is_count x -> Num.is_count y -> Num.is_int (cumulative_step cw x y) ->
  Num.is_int y.
Proof. unfold cumulative_step. destruct x, y, cw; simpl; tauto. Qed.

Lemma firstn_succ_nth {A : Type} (l : list A) (d : A) : forall k,
  (k < List.length l)%nat -> firstn (S k) l = firstn k l ++ [nth k l d].
Proof.
  induction l as [|x l IH]; intros k Hk; [cbn in Hk; lia|].
  destruct k as [|k]; [reflexivity|].
  cbn [firstn nth app]. f_equal. apply IH. cbn in Hk. lia.
Qed.

Lemma counts_int_of_sums (cw : bool) (splits : list string) (counts : list num) :
  List.length splits = List.length counts -> Forall Num.is_count counts ->
  (forall i, 0 <= i < len splits ->
     Num.is_int (nth (Z.to_nat i) (cumulative cw counts) NaN)) ->
  Forall Num.is_int (removelast counts).
Proof.
  intros Hlen Hcounts Hall. rewrite removelast_firstn_len.
  apply Forall_forall. intros x Hx.
  apply (In_nth _ _ NaN) in Hx. destruct Hx as (k & Hk & <-).
  rewrite length_firstn in Hk. rewrite nth_firstn.
  replace (k <? Nat.pred (List.length counts))%nat with true
    by (symmetry; apply Nat.ltb_lt; lia).
  assert (Hk1 : 0 <= Z.of_nat (S k) < len splits) by (unfold len; lia).
  pose proof (Hall _ Hk1) as Hint.
  rewrite (cumn_fold cw splits counts Hlen) in Hint by lia.
  rewrite Nat2Z.id, (firstn_succ_nth counts NaN) in Hint by lia.
  rewrite fold_left_app in Hint. cbn [fold_left] in Hint.
  eapply step_int_count; [| |exact Hint].
  - apply fold_plus_count; [now apply Forall_firstn | exact I].
  - rewrite Forall_forall in Hcounts. apply Hcounts. apply nth_In. lia.
Qed.

(** X13.  Outside the fast path, for splits and counts of equal length, the
    merger returns exactly when no count before the last is [inf]: then one
    turn per split is enough, and otherwise the loop is still running after
    any number of turns. *)
Theorem merge_returns_iff (cs : Z) (splits : list string) (counts : list num)
  (cw : bool) :
  0 < cs -> List.length splits = List.length counts -> Forall Num.is_count counts ->
  splits <> [] -> all_oversized cs counts = false ->
  (Forall Num.is_int (removelast counts)
   /\ exists merged combined,
        _merge_splits cs (List.length splits) splits counts cw = Ret (merged, combined))
  \/ (~ Forall Num.is_int (removelast counts)
      /\ forall turns, _merge_splits cs turns splits counts cw = Loops).
Proof.
  intros Hcs Hlen Hcounts Hne Hover.
  destruct (sums_int_or_inf cw splits counts Hlen Hcounts) as [Hall|(f & Hf & Hinf)].
  - left. pose proof (counts_int_of_sums cw splits counts Hlen Hcounts Hall) as Hint.
    split; [exact Hint|]. now apply merge_splits_returns.
  - right. split.
    + intros Hint.
      assert (H : Num.is_int (nth (Z.to_nat f) (cumulative cw counts) NaN))
        by (apply (sums_int_of_counts cw splits counts Hlen Hint); exact Hf).
      rewrite Hinf in H. contradiction.
    + intros turns. now apply (merge_splits_stuck cs turns splits counts cw f).
Qed.

Lemma merge_returns_iff_witness :
  (Forall Num.is_int (removelast [Int 2; PInf])
   /\ exists merged combined,
        _merge_splits 5 2 ["a"; "b"]%string [Int 2; PInf] false = Ret (merged, combined))
  \/ (~ Forall Num.is_int (removelast [Int 2; PInf])
      /\ forall turns, _merge_splits 5 turns ["a"; "b"]%string [Int 2; PInf] false = Loops).
Proof.
  apply (merge_returns_iff 5 ["a"; "b"]%string [Int 2; PInf] false).
  - lia.
  - reflexivity.
  - repeat constructor.
  - discriminate.
  - reflexivity.
Defined.

(** ** The driver at a token-window level: the lookup in the joined pieces *)

Lemma drop_append (a b : string) : Str.drop (String.length a) (a ++ b) = b.
Proof. induction a as [|c a IH]; [destruct b; reflexivity | exact IH]. Qed.

Lemma take_append (a b : string) : Str.take (String.length a) (a ++ b) = a.
Proof.
  induction a as [|c a IH]; [destruct b; reflexivity|].
  cbn [String.length append Str.take]. now rewrite IH.
Qed.

Lemma in_join_parts (x : string) (l : list string) :
  In x l -> exists pre post, Str.join "" l = (pre ++ x ++ post)%string.
Proof.
  induction l as [|y l IH]; intros Hin; [contradiction|].
  rewrite join_empty_cons. destruct Hin as [->|Hin].
  - exists ""%string, (Str.join "" l). reflexivity.
  - destruct (IH Hin) as (pre & post & ->).
    exists (y ++ pre)%string, post. now rewrite append_assoc.
Qed.

(** X14.  At a level without delimiters and whitespace the driver looks each
    piece up in the join of the pieces.  That lookup always succeeds: nothing
    is printed, and the chunk's indexes delimit the piece in the joined
    text. *)
Theorem convert_in_joined_pieces (self : RecursiveChunker) (split : string)
  (count : num) (lvl : nat) (pieces : list string) :
  In split pieces ->
  let r := _convert_to_chunk self split count lvl (Some (Str.join "" pieces)) 0 in
  snd r = []
  /\ Str.slice (Str.join "" pieces) (start_index (fst r)) (end_index (fst r)) = split.
Proof.
  intros Hin r. subst r. unfold _convert_to_chunk. cbn [Str.drop].
  destruct (in_join_parts split pieces Hin) as (pre & post & Hjoin).
  destruct (index_spec split (Str.join "" pieces)) as [(i & Hi & Ht)|[Hi Hn]];
    rewrite Hi; cbn [fst snd start_index end_index].
  - split; [reflexivity|]. cbn [Nat.add]. now rewrite slice_take_drop.
  - exfalso. apply (Hn (String.length pre)).
    rewrite Hjoin, drop_append. apply take_append.
Qed.

Lemma convert_in_joined_pieces_witness :
  snd (_convert_to_chunk word_chunker "cd" (Int 2) 0
         (Some (Str.join "" ["ab"; "cd"]%string)) 0) = [].
Proof.
  apply (convert_in_joined_pieces word_chunker "cd" (Int 2) 0 ["ab"; "cd"]%string).
  right. left. reflexivity.
Defined.
